(** * itl: iTunes Library XML (plist) data types

    A shallow embedding of package [itl] (github.com/dhowden/itl) and the
    properties of its decode entry point, its lookup helpers and its
    by-name typed field accessors.

    Conventions of the embedding:
    - Go [int] is [Z] (no arithmetic is performed on it anywhere in the
      package), [string] is [string], [bool] is [bool];
    - a Go [error] is [option goerror], [None] being [nil];
    - a panic is the [Panic] constructor of [result];
    - maps and slices are references into a [heap] of objects, so that
      aliasing between a library's map and the slices handed out to
      callers is visible;
    - the collaborators outside the package (the plist decoder, the
      map iterator of the runtime, the tables of HTML entities) are
      parameters of the definitions that call them; module [plist]
      models the decoder the package is built with, for the properties
      that depend on how it stores what it reads. *)

From Stdlib Require Import ZArith List Ascii String DecimalString.
From Stdlib.Strings Require Import Byte.
From stdpp Require Import gmap strings list fin_maps.

Local Open Scope string_scope.
Local Open Scope list_scope.
Local Open Scope Z_scope.

(** ** Errors, panics *)

(** An [error] value.  [io_EOF] is the sentinel [io.EOF], compared by
    identity in Go; every other error is known by its message. *)
Inductive goerror : Type :=
| io_EOF
| errorString (msg : string).

#[global] Instance goerror_eq_dec : EqDecision goerror.
Proof. solve_decision. Defined.

(** [fmt.Errorf(format, a)] for the one format the package uses, a
    constant text followed by one [%v] verb applied to a string. *)
Definition Errorf (text : string) (a : string) : goerror :=
  errorString (text +:+ a).

(** The outcome of a call that may panic. *)
Inductive result (A : Type) : Type :=
| Ret (a : A)
| Panic (v : string).
Arguments Ret {A} a.
Arguments Panic {A} v.

Definition panics {A : Type} (r : result A) : Prop :=
  match r with Ret _ => False | Panic _ => True end.

(** ** Values of the language *)

(** [time.Time]: the wall and monotonic words of the standard library's
    representation.  Its zero value has both words zero. *)
Record Time : Type := mkTime { wall : Z; ext : Z }.

Definition zero_Time : Time := {| wall := 0; ext := 0 |}.

(** Addresses of heap objects. *)
Abbreviation loc := positive.

(** A map value is a pointer to its hash table, or nil. *)
Definition mapref : Type := option loc.

(** A slice value: pointer to the backing array (or nil), length and
    capacity. *)
Record slice : Type := mkSlice { ptr : option loc; len : nat; cap : nat }.

Definition nil_slice : slice := {| ptr := None; len := 0; cap := 0 |}.

(** ** Package reflect, as far as the accessors use it *)

Module reflect.

Inductive Kind : Type := Invalid | Bool | Int | String | Struct | Map | Slice.

#[global] Instance Kind_eq_dec : EqDecision Kind.
Proof. solve_decision. Defined.

(** A struct tag in the conventional format: a list of key/value pairs. *)
Definition StructTag : Type := list (string * string).

(** [StructTag.Lookup]: the value of [key] and whether it is present. *)
Fixpoint Lookup (tag : StructTag) (key : string) : option string :=
  match tag with
  | [] => None
  | (k, v) :: tag' => if decide (k = key) then Some v else Lookup tag' key
  end.

Record StructField : Type := field { Name : string; Type_ : Kind; Tag : StructTag }.

(** [Type.FieldByName] on a struct type without embedded fields: the
    first (and only) field of that name, with its index. *)
Fixpoint FieldByName_from (i : nat) (fields : list StructField) (name : string)
  : option (nat * StructField) :=
  match fields with
  | [] => None
  | f :: fields' =>
      if decide (Name f = name) then Some (i, f)
      else FieldByName_from (S i) fields' name
  end.

Definition FieldByName (fields : list StructField) (name : string)
  : option (nat * StructField) :=
  FieldByName_from 0 fields name.

End reflect.

(** ** The data model

    The structs are those of the source file that also holds the lookup
    helpers and the accessors (src/unnamed/part_000); src/itl.go declares
    the same [Library] and [PlaylistItem], and a [Track] and a [Playlist]
    with more fields, described in module [ItlGo] below.  [Playlist] and
    [PlaylistItem] share field names with [Track]; their projections
    carry the struct's name. *)

Record Track : Type := mkTrack {
  TrackID : Z;
  Name : string;
  Artist : string;
  Composer : string;
  Year : Z;
  Genre : string;
  Kind : string;
  Size : Z;
  BPM : Z;
  TrackNumber : Z;
  TrackCount : Z;
  DiscNumber : Z;
  DiscCount : Z;
  PartOfGaplessAlbum : bool;
  ContentRating : string;
  Rating : Z;
  RatingComputed : bool;
  Disabled : bool;
  Album : string;
  AlbumArtist : string;
  AlbumRating : Z;
  AlbumRatingComputed : bool;
  SortName : string;
  SortArtist : string;
  SortAlbumArtist : string;
  SortAlbum : string;
  SortComposer : string;
  Clean : bool;
  Series : string;
  TotalTime : Z;
  DateModified : Time;
  DateAdded : Time;
  BitRate : Z;
  SampleRate : Z;
  VolumeAdjustment : Z;
  Comments : string;
  PlayCount : Z;
  PlayDate : Z;
  PlayDateUTC : Time;
  Protected : bool;
  Purchased : bool;
  SkipCount : Z;
  SkipDate : Time;
  ArtworkCount : Z;
  Episode : string;
  EpisodeOrder : Z;
  TVShow : bool;
  Season : Z;
  Podcast : bool;
  ITunesU : bool;
  Unplayed : bool;
  PersistentID : string;
  TrackType : string;
  Location : string;
  FileType : Z;
  Movie : bool;
  MusicVideo : bool;
  HD : bool;
  HasVideo : bool;
  VideoHeight : Z;
  VideoWidth : Z;
  Grouping : string;
  Compilation : bool;
  ReleaseDate : Time;
  FileFolderCount : Z;
  LibraryFolderCount : Z
}.

Record PlaylistItem : Type := mkPlaylistItem {
  PlaylistItem_TrackID : Z
}.

Record Playlist : Type := mkPlaylist {
  Playlist_Name : string;
  Playlist_Master : bool;
  Playlist_PlaylistID : Z;
  Playlist_PlaylistPersistentID : string;
  Playlist_Visible : bool;
  Playlist_AllItems : bool;
  Playlist_PlaylistItems : slice
}.

Record Library : Type := mkLibrary {
  MajorVersion : Z;
  MinorVersion : Z;
  Date : Time;
  ApplicationVersion : string;
  Features : Z;
  ShowContentRatings : bool;
  MusicFolder : string;
  LibraryPersistentID : string;
  Tracks : mapref;
  Playlists : slice
}.

(** Zero values: what a declared and not yet assigned variable holds. *)

Definition zero_Track : Track :=
  {| TrackID := 0;
     Name := "";
     Artist := "";
     Composer := "";
     Year := 0;
     Genre := "";
     Kind := "";
     Size := 0;
     BPM := 0;
     TrackNumber := 0;
     TrackCount := 0;
     DiscNumber := 0;
     DiscCount := 0;
     PartOfGaplessAlbum := false;
     ContentRating := "";
     Rating := 0;
     RatingComputed := false;
     Disabled := false;
     Album := "";
     AlbumArtist := "";
     AlbumRating := 0;
     AlbumRatingComputed := false;
     SortName := "";
     SortArtist := "";
     SortAlbumArtist := "";
     SortAlbum := "";
     SortComposer := "";
     Clean := false;
     Series := "";
     TotalTime := 0;
     DateModified := zero_Time;
     DateAdded := zero_Time;
     BitRate := 0;
     SampleRate := 0;
     VolumeAdjustment := 0;
     Comments := "";
     PlayCount := 0;
     PlayDate := 0;
     PlayDateUTC := zero_Time;
     Protected := false;
     Purchased := false;
     SkipCount := 0;
     SkipDate := zero_Time;
     ArtworkCount := 0;
     Episode := "";
     EpisodeOrder := 0;
     TVShow := false;
     Season := 0;
     Podcast := false;
     ITunesU := false;
     Unplayed := false;
     PersistentID := "";
     TrackType := "";
     Location := "";
     FileType := 0;
     Movie := false;
     MusicVideo := false;
     HD := false;
     HasVideo := false;
     VideoHeight := 0;
     VideoWidth := 0;
     Grouping := "";
     Compilation := false;
     ReleaseDate := zero_Time;
     FileFolderCount := 0;
     LibraryFolderCount := 0 |}.

Definition zero_Library : Library :=
  {| MajorVersion := 0;
     MinorVersion := 0;
     Date := zero_Time;
     ApplicationVersion := "";
     Features := 0;
     ShowContentRatings := false;
     MusicFolder := "";
     LibraryPersistentID := "";
     Tracks := None;
     Playlists := nil_slice |}.

(** ** Reflection over [Track] *)

(** A [reflect.Value] holding a field of a [Track]; [VInvalid] is the
    zero [Value]. *)
Inductive Value : Type :=
| VInvalid
| VInt (z : Z)
| VString (s : string)
| VBool (b : bool)
| VTime (t : Time).

Definition Value_Kind (v : Value) : reflect.Kind :=
  match v with
  | VInvalid => reflect.Invalid
  | VInt _ => reflect.Int
  | VString _ => reflect.String
  | VBool _ => reflect.Bool
  | VTime _ => reflect.Struct
  end.

(** [Value.String]: the string itself for a string, a placeholder text
    for every other kind; it never panics. *)
Definition Value_String (v : Value) : string :=
  match v with
  | VString s => s
  | VInvalid => "<invalid Value>"
  | VInt _ => "<int Value>"
  | VBool _ => "<bool Value>"
  | VTime _ => "<time.Time Value>"
  end.

(** [Value.Int] and [Value.Bool] panic on a value of another kind. *)
Definition Value_Int (v : Value) : result Z :=
  match v with
  | VInt z => Ret z
  | _ => Panic "reflect: call of reflect.Value.Int on non-int Value"
  end.

Definition Value_Bool (v : Value) : result bool :=
  match v with
  | VBool b => Ret b
  | _ => Panic "reflect: call of reflect.Value.Bool on non-bool Value"
  end.

(** The type descriptors [reflect.TypeOf] yields: fields in declaration
    order, each with its kind and its struct tag. *)

Definition Library_type : list reflect.StructField :=
  [reflect.field "MajorVersion" reflect.Int [("plist", "Major Version")];
   reflect.field "MinorVersion" reflect.Int [("plist", "Minor Version")];
   reflect.field "Date" reflect.Struct [];
   reflect.field "ApplicationVersion" reflect.String [("plist", "Application Version")];
   reflect.field "Features" reflect.Int [];
   reflect.field "ShowContentRatings" reflect.Bool [("plist", "Show Content Ratings")];
   reflect.field "MusicFolder" reflect.String [("plist", "Music Folder")];
   reflect.field "LibraryPersistentID" reflect.String [("plist", "Library Persistent ID")];
   reflect.field "Tracks" reflect.Map [];
   reflect.field "Playlists" reflect.Slice []].

Definition Track_type : list reflect.StructField :=
  [reflect.field "TrackID" reflect.Int [("plist", "Track ID")];
   reflect.field "Name" reflect.String [];
   reflect.field "Artist" reflect.String [];
   reflect.field "Composer" reflect.String [];
   reflect.field "Year" reflect.Int [];
   reflect.field "Genre" reflect.String [];
   reflect.field "Kind" reflect.String [];
   reflect.field "Size" reflect.Int [];
   reflect.field "BPM" reflect.Int [];
   reflect.field "TrackNumber" reflect.Int [("plist", "Track Number")];
   reflect.field "TrackCount" reflect.Int [("plist", "Track Count")];
   reflect.field "DiscNumber" reflect.Int [("plist", "Disc Number")];
   reflect.field "DiscCount" reflect.Int [("plist", "Disc Count")];
   reflect.field "PartOfGaplessAlbum" reflect.Bool [("plist", "Part Of Gapless Album")];
   reflect.field "ContentRating" reflect.String [("plist", "Content Rating")];
   reflect.field "Rating" reflect.Int [];
   reflect.field "RatingComputed" reflect.Bool [("plist", "Rating Computed")];
   reflect.field "Disabled" reflect.Bool [];
   reflect.field "Album" reflect.String [];
   reflect.field "AlbumArtist" reflect.String [("plist", "Album Artist")];
   reflect.field "AlbumRating" reflect.Int [("plist", "Album Rating")];
   reflect.field "AlbumRatingComputed" reflect.Bool [("plist", "Album Rating Computed")];
   reflect.field "SortName" reflect.String [("plist", "Sort Name")];
   reflect.field "SortArtist" reflect.String [("plist", "Sort Artist")];
   reflect.field "SortAlbumArtist" reflect.String [("plist", "Sort Album Artist")];
   reflect.field "SortAlbum" reflect.String [("plist", "Sort Album")];
   reflect.field "SortComposer" reflect.String [("plist", "Sort Composer")];
   reflect.field "Clean" reflect.Bool [];
   reflect.field "Series" reflect.String [];
   reflect.field "TotalTime" reflect.Int [("plist", "Total Time")];
   reflect.field "DateModified" reflect.Struct [("plist", "Date Modified")];
   reflect.field "DateAdded" reflect.Struct [("plist", "Date Added")];
   reflect.field "BitRate" reflect.Int [("plist", "Bit Rate")];
   reflect.field "SampleRate" reflect.Int [("plist", "Sample Rate")];
   reflect.field "VolumeAdjustment" reflect.Int [("plist", "Volume Adjustment")];
   reflect.field "Comments" reflect.String [];
   reflect.field "PlayCount" reflect.Int [("plist", "Play Count")];
   reflect.field "PlayDate" reflect.Int [("plist", "Play Date")];
   reflect.field "PlayDateUTC" reflect.Struct [("plist", "Play Date UTC")];
   reflect.field "Protected" reflect.Bool [];
   reflect.field "Purchased" reflect.Bool [];
   reflect.field "SkipCount" reflect.Int [("plist", "Skip Count")];
   reflect.field "SkipDate" reflect.Struct [("plist", "Skip Date")];
   reflect.field "ArtworkCount" reflect.Int [("plist", "Artwork Count")];
   reflect.field "Episode" reflect.String [];
   reflect.field "EpisodeOrder" reflect.Int [("plist", "Episode Order")];
   reflect.field "TVShow" reflect.Bool [("plist", "TV Show")];
   reflect.field "Season" reflect.Int [];
   reflect.field "Podcast" reflect.Bool [];
   reflect.field "ITunesU" reflect.Bool [("plist", "iTunesU")];
   reflect.field "Unplayed" reflect.Bool [];
   reflect.field "PersistentID" reflect.String [("plist", "Persistent ID")];
   reflect.field "TrackType" reflect.String [("plist", "Track Type")];
   reflect.field "Location" reflect.String [];
   reflect.field "FileType" reflect.Int [("plist", "File Type")];
   reflect.field "Movie" reflect.Bool [];
   reflect.field "MusicVideo" reflect.Bool [("plist", "Music Video")];
   reflect.field "HD" reflect.Bool [];
   reflect.field "HasVideo" reflect.Bool [("plist", "Has Video")];
   reflect.field "VideoHeight" reflect.Int [("plist", "Video Height")];
   reflect.field "VideoWidth" reflect.Int [("plist", "Video Width")];
   reflect.field "Grouping" reflect.String [];
   reflect.field "Compilation" reflect.Bool [];
   reflect.field "ReleaseDate" reflect.Struct [("plist", "Release Date")];
   reflect.field "FileFolderCount" reflect.Int [("plist", "File Folder Count")];
   reflect.field "LibraryFolderCount" reflect.Int [("plist", "Library Folder Count")]].

Definition Playlist_type : list reflect.StructField :=
  [reflect.field "Name" reflect.String [];
   reflect.field "Master" reflect.Bool [];
   reflect.field "PlaylistID" reflect.Int [("plist", "Playlist ID")];
   reflect.field "PlaylistPersistentID" reflect.String [("plist", "Playlist Persistent ID")];
   reflect.field "Visible" reflect.Bool [];
   reflect.field "AllItems" reflect.Bool [("plist", "All Items")];
   reflect.field "PlaylistItems" reflect.Slice [("plist", "Playlist Items")]].

Definition PlaylistItem_type : list reflect.StructField :=
  [reflect.field "TrackID" reflect.Int [("plist", "Track ID")]].

(** The descriptors of the same structs as src/itl.go declares them. *)

Module ItlGo.

Definition Library_type : list reflect.StructField :=
  [reflect.field "MajorVersion" reflect.Int [("plist", "Major Version")];
   reflect.field "MinorVersion" reflect.Int [("plist", "Minor Version")];
   reflect.field "Date" reflect.Struct [];
   reflect.field "ApplicationVersion" reflect.String [("plist", "Application Version")];
   reflect.field "Features" reflect.Int [];
   reflect.field "ShowContentRatings" reflect.Bool [("plist", "Show Content Ratings")];
   reflect.field "MusicFolder" reflect.String [("plist", "Music Folder")];
   reflect.field "LibraryPersistentID" reflect.String [("plist", "Library Persistent ID")];
   reflect.field "Tracks" reflect.Map [];
   reflect.field "Playlists" reflect.Slice []].

Definition Track_type : list reflect.StructField :=
  [reflect.field "TrackID" reflect.Int [("plist", "Track ID")];
   reflect.field "Name" reflect.String [];
   reflect.field "Artist" reflect.String [];
   reflect.field "Composer" reflect.String [];
   reflect.field "Year" reflect.Int [];
   reflect.field "Genre" reflect.String [];
   reflect.field "Kind" reflect.String [];
   reflect.field "Size" reflect.Int [];
   reflect.field "BPM" reflect.Int [];
   reflect.field "TrackNumber" reflect.Int [("plist", "Track Number")];
   reflect.field "TrackCount" reflect.Int [("plist", "Track Count")];
   reflect.field "DiscNumber" reflect.Int [("plist", "Disc Number")];
   reflect.field "DiscCount" reflect.Int [("plist", "Disc Count")];
   reflect.field "PartOfGaplessAlbum" reflect.Bool [("plist", "Part Of Gapless Album")];
   reflect.field "ContentRating" reflect.String [("plist", "Content Rating")];
   reflect.field "Rating" reflect.Int [];
   reflect.field "RatingComputed" reflect.Bool [("plist", "Rating Computed")];
   reflect.field "Disabled" reflect.Bool [];
   reflect.field "Loved" reflect.Bool [("plist", "Loved")];
   reflect.field "Album" reflect.String [];
   reflect.field "AlbumArtist" reflect.String [("plist", "Album Artist")];
   reflect.field "AlbumRating" reflect.Int [("plist", "Album Rating")];
   reflect.field "AlbumRatingComputed" reflect.Bool [("plist", "Album Rating Computed")];
   reflect.field "AlbumLoved" reflect.Bool [("plist", "Album Loved")];
   reflect.field "SortName" reflect.String [("plist", "Sort Name")];
   reflect.field "SortArtist" reflect.String [("plist", "Sort Artist")];
   reflect.field "SortAlbumArtist" reflect.String [("plist", "Sort Album Artist")];
   reflect.field "SortAlbum" reflect.String [("plist", "Sort Album")];
   reflect.field "SortComposer" reflect.String [("plist", "Sort Composer")];
   reflect.field "Clean" reflect.Bool [];
   reflect.field "Series" reflect.String [];
   reflect.field "TotalTime" reflect.Int [("plist", "Total Time")];
   reflect.field "DateModified" reflect.Struct [("plist", "Date Modified")];
   reflect.field "DateAdded" reflect.Struct [("plist", "Date Added")];
   reflect.field "BitRate" reflect.Int [("plist", "Bit Rate")];
   reflect.field "SampleRate" reflect.Int [("plist", "Sample Rate")];
   reflect.field "VolumeAdjustment" reflect.Int [("plist", "Volume Adjustment")];
   reflect.field "Comments" reflect.String [];
   reflect.field "PlayCount" reflect.Int [("plist", "Play Count")];
   reflect.field "PlayDate" reflect.Int [("plist", "Play Date")];
   reflect.field "PlayDateUTC" reflect.Struct [("plist", "Play Date UTC")];
   reflect.field "Protected" reflect.Bool [];
   reflect.field "Purchased" reflect.Bool [];
   reflect.field "SkipCount" reflect.Int [("plist", "Skip Count")];
   reflect.field "SkipDate" reflect.Struct [("plist", "Skip Date")];
   reflect.field "ArtworkCount" reflect.Int [("plist", "Artwork Count")];
   reflect.field "Episode" reflect.String [];
   reflect.field "EpisodeOrder" reflect.Int [("plist", "Episode Order")];
   reflect.field "TVShow" reflect.Bool [("plist", "TV Show")];
   reflect.field "Season" reflect.Int [];
   reflect.field "Podcast" reflect.Bool [];
   reflect.field "ITunesU" reflect.Bool [("plist", "iTunesU")];
   reflect.field "Unplayed" reflect.Bool [];
   reflect.field "PersistentID" reflect.String [("plist", "Persistent ID")];
   reflect.field "TrackType" reflect.String [("plist", "Track Type")];
   reflect.field "Location" reflect.String [];
   reflect.field "FileType" reflect.Int [("plist", "File Type")];
   reflect.field "Movie" reflect.Bool [];
   reflect.field "MusicVideo" reflect.Bool [("plist", "Music Video")];
   reflect.field "HD" reflect.Bool [];
   reflect.field "HasVideo" reflect.Bool [("plist", "Has Video")];
   reflect.field "VideoHeight" reflect.Int [("plist", "Video Height")];
   reflect.field "VideoWidth" reflect.Int [("plist", "Video Width")];
   reflect.field "Grouping" reflect.String [];
   reflect.field "Compilation" reflect.Bool [];
   reflect.field "ReleaseDate" reflect.Struct [("plist", "Release Date")];
   reflect.field "FileFolderCount" reflect.Int [("plist", "File Folder Count")];
   reflect.field "LibraryFolderCount" reflect.Int [("plist", "Library Folder Count")]].

Definition Playlist_type : list reflect.StructField :=
  [reflect.field "Name" reflect.String [];
   reflect.field "Master" reflect.Bool [];
   reflect.field "PlaylistID" reflect.Int [("plist", "Playlist ID")];
   reflect.field "ParentPersistentID" reflect.String [("plist", "Parent Persistent ID")];
   reflect.field "PlaylistPersistentID" reflect.String [("plist", "Playlist Persistent ID")];
   reflect.field "DistinguishedKind" reflect.Int [("plist", "Distinguished Kind")];
   reflect.field "Visible" reflect.Bool [];
   reflect.field "Music" reflect.Bool [];
   reflect.field "Movies" reflect.Bool [];
   reflect.field "TVShows" reflect.Bool [("plist", "TV Shows")];
   reflect.field "Podcasts" reflect.Bool [];
   reflect.field "ITunesU" reflect.Bool [("plist", "iTunesU")];
   reflect.field "Audiobooks" reflect.Bool [];
   reflect.field "AllItems" reflect.Bool [("plist", "All Items")];
   reflect.field "Folder" reflect.Bool [];
   reflect.field "PlaylistItems" reflect.Slice [("plist", "Playlist Items")]].

Definition PlaylistItem_type : list reflect.StructField :=
  [reflect.field "TrackID" reflect.Int [("plist", "Track ID")]].

End ItlGo.

(** The fields of a [Track] value, in declaration order ([Value.Field]). *)

Definition Track_values (t : Track) : list Value :=
  [VInt (TrackID t);
   VString (Name t);
   VString (Artist t);
   VString (Composer t);
   VInt (Year t);
   VString (Genre t);
   VString (Kind t);
   VInt (Size t);
   VInt (BPM t);
   VInt (TrackNumber t);
   VInt (TrackCount t);
   VInt (DiscNumber t);
   VInt (DiscCount t);
   VBool (PartOfGaplessAlbum t);
   VString (ContentRating t);
   VInt (Rating t);
   VBool (RatingComputed t);
   VBool (Disabled t);
   VString (Album t);
   VString (AlbumArtist t);
   VInt (AlbumRating t);
   VBool (AlbumRatingComputed t);
   VString (SortName t);
   VString (SortArtist t);
   VString (SortAlbumArtist t);
   VString (SortAlbum t);
   VString (SortComposer t);
   VBool (Clean t);
   VString (Series t);
   VInt (TotalTime t);
   VTime (DateModified t);
   VTime (DateAdded t);
   VInt (BitRate t);
   VInt (SampleRate t);
   VInt (VolumeAdjustment t);
   VString (Comments t);
   VInt (PlayCount t);
   VInt (PlayDate t);
   VTime (PlayDateUTC t);
   VBool (Protected t);
   VBool (Purchased t);
   VInt (SkipCount t);
   VTime (SkipDate t);
   VInt (ArtworkCount t);
   VString (Episode t);
   VInt (EpisodeOrder t);
   VBool (TVShow t);
   VInt (Season t);
   VBool (Podcast t);
   VBool (ITunesU t);
   VBool (Unplayed t);
   VString (PersistentID t);
   VString (TrackType t);
   VString (Location t);
   VInt (FileType t);
   VBool (Movie t);
   VBool (MusicVideo t);
   VBool (HD t);
   VBool (HasVideo t);
   VInt (VideoHeight t);
   VInt (VideoWidth t);
   VString (Grouping t);
   VBool (Compilation t);
   VTime (ReleaseDate t);
   VInt (FileFolderCount t);
   VInt (LibraryFolderCount t)].

(** ** The heap

    Maps and slices are reference types: a map value points to a hash
    table and a slice value to a backing array, both living in the heap.
    Copying a [Library] copies the pointers, not the objects. *)

Inductive object : Type :=
| MapObj (m : gmap string Track)
| TrackArr (a : list Track)
| PlaylistArr (a : list Playlist)
| PlaylistItemArr (a : list PlaylistItem).

Abbreviation heap := (gmap positive object).

(** The table a map value denotes; a nil map has no entries. *)
Definition map_contents (h : heap) (m : mapref) : gmap string Track :=
  match m with
  | None => ∅
  | Some p => match h !! p with Some (MapObj tbl) => tbl | _ => ∅ end
  end.

(** [t, ok := m[k]]: the zero value and [false] for a missing key. *)
Definition mapaccess2 (h : heap) (m : mapref) (k : string) : Track * bool :=
  match map_contents h m !! k with
  | Some t => (t, true)
  | None => (zero_Track, false)
  end.

(** [len(m)]. *)
Definition map_len (h : heap) (m : mapref) : nat := size (map_contents h m).

(** [m[k] = t] on a non-nil map (assignment to a nil map panics). *)
Definition mapassign (m : mapref) (k : string) (t : Track) (h : heap) : result heap :=
  match m with
  | None => Panic "assignment to entry in nil map"
  | Some p => Ret (<[p := MapObj (<[k := t]> (map_contents h m))]> h)
  end.

(** The backing array of a slice of tracks. *)
Definition array_at (h : heap) (p : option loc) : list Track :=
  match p with
  | None => []
  | Some q => match h !! q with Some (TrackArr a) => a | _ => [] end
  end.

(** The elements [s[0]], ..., [s[len(s)-1]]. *)
Definition slice_elems (h : heap) (s : slice) : list Track :=
  take (len s) (array_at h (ptr s)).

(** The address the runtime returns for an allocation of no bytes (its
    [zerobase]).  It is not nil, every zero-size allocation returns it,
    and no object is ever allocated there. *)
Definition zerobase : loc := 4096%positive.

(** The address of a newly allocated object: one that is not in use and
    is not [zerobase]. *)
Definition newobject (h : heap) : loc := fresh ({[zerobase]} ∪ dom h).

(** [make([]Track, n, c)]: a new array of [c] zero values; for [c = 0]
    nothing is allocated and the slice points to [zerobase]. *)
Definition make_slice (n c : nat) (h : heap) : slice * heap :=
  if decide (c = 0)%nat then
    ({| ptr := Some zerobase; len := n; cap := c |}, h)
  else
    let p := newobject h in
    ({| ptr := Some p; len := n; cap := c |},
     <[p := TrackArr (replicate c zero_Track)]> h).

(** [append(s, t)]: in place while the capacity lasts, otherwise into a
    new, larger array holding a copy of the elements.  The capacity of
    the new array is the runtime's choice ([grow], given the old capacity
    and the length needed): at least the length needed, rounded up to an
    allocation size. *)
Definition append_with (grow : nat → nat → nat)
  (s : slice) (t : Track) (h : heap) : slice * heap :=
  match ptr s with
  | Some p =>
      if decide (len s < cap s)%nat then
        ({| ptr := Some p; len := S (len s); cap := cap s |},
         <[p := TrackArr (<[len s := t]> (array_at h (ptr s)))]> h)
      else
        let c := grow (cap s) (S (len s)) in
        let q := newobject h in
        ({| ptr := Some q; len := S (len s); cap := c |},
         <[q := TrackArr (slice_elems h s ++ t :: replicate (c - S (len s)) zero_Track)]> h)
  | None =>
      let c := grow 0%nat 1%nat in
      let q := newobject h in
      ({| ptr := Some q; len := 1; cap := c |},
       <[q := TrackArr (t :: replicate (c - 1) zero_Track)]> h)
  end.

(** One admissible choice of capacity, doubling; the runtime's own rule
    rounds to its allocation sizes and is not modelled.  The loop of
    [AllTracks] never reaches it. *)
Definition growcap (oldcap needed : nat) : nat := Nat.max needed (2 * oldcap).

Definition append (s : slice) (t : Track) (h : heap) : slice * heap :=
  append_with growcap s t h.

(** [s[i] = t]: panics when [i] is out of range. *)
Definition slice_set (s : slice) (i : nat) (t : Track) (h : heap) : result heap :=
  match ptr s with
  | Some p =>
      if decide (i < len s)%nat
      then Ret (<[p := TrackArr (<[i := t]> (array_at h (ptr s)))]> h)
      else Panic "index out of range"
  | None => Panic "index out of range"
  end.

(** ** Lookup helpers *)

(** [func (l *Library) Track(id string) (t Track, err error)] *)
Definition Library_Track (l : Library) (id : string) (h : heap)
  : Track * option goerror :=
  let '(t, ok) := mapaccess2 h (Tracks l) id in
  let err := if negb ok then Some (Errorf "no track with id: " id) else None in
  (t, err).

(** The body of [for _, t := range l.Tracks { tracks = append(tracks, t) }]
    over the entries in the order the iterator yields them. *)
Fixpoint AllTracks_loop (kvs : list (string * Track)) (tracks : slice) (h : heap)
  : slice * heap :=
  match kvs with
  | [] => (tracks, h)
  | (_, t) :: kvs' =>
      let '(tracks', h') := append tracks t h in
      AllTracks_loop kvs' tracks' h'
  end.

(** [func (l *Library) AllTracks() []Track]

    The order in which a [range] over a map visits its entries is chosen
    by the runtime: [mapiter] is that choice. *)
Definition Library_AllTracks (mapiter : gmap string Track → list (string * Track))
  (l : Library) (h : heap) : slice * heap :=
  let '(tracks, h1) := make_slice 0 (map_len h (Tracks l)) h in
  AllTracks_loop (mapiter (map_contents h (Tracks l))) tracks h1.

(** ** Decoding *)

(** An [io.Reader], as the sequence of outcomes of its [Read] calls: data
    with a nil error and more to come, or data with an error, after which
    the reader is not called again.  [io.EOF] is the error of a regular
    end. *)
Inductive Reader : Type :=
| Read_more (p : list byte) (r : Reader)
| Read_last (p : list byte) (err : goerror).

(** [ioutil.ReadAll]: collects the data of every [Read] up to the first
    error, and reports that error unless it is [io.EOF]. *)
Fixpoint ReadAll_from (b : list byte) (r : Reader) : list byte * option goerror :=
  match r with
  | Read_more p r' => ReadAll_from (b ++ p) r'
  | Read_last p err => (b ++ p, if decide (err = io_EOF) then None else Some err)
  end.

Definition ReadAll (r : Reader) : list byte * option goerror := ReadAll_from [] r.

(** The error that ends a stream, and the data it delivers up to there.
    A stream can be consumed in full when it ends in [io.EOF]. *)
Fixpoint Reader_error (r : Reader) : goerror :=
  match r with
  | Read_more _ r' => Reader_error r'
  | Read_last _ err => err
  end.

Fixpoint Reader_data (r : Reader) : list byte :=
  match r with
  | Read_more p r' => p ++ Reader_data r'
  | Read_last p _ => p
  end.

(** [func ReadFromXML(r io.Reader) (l Library, err error)]

    [Unmarshal] is [plist.Unmarshal(b, &l)] of the decoder package: it is
    handed the bytes and the target, and leaves a target, an error and a
    memory behind.  [l] starts as the zero value of the named result. *)
Definition ReadFromXML {store : Type}
  (Unmarshal : list byte → Library → store → Library * option goerror * store)
  (r : Reader) (h : store) : Library * option goerror * store :=
  let l := zero_Library in
  let '(b, err) := ReadAll r in
  match err with
  | Some _ => (l, err, h)
  | None => Unmarshal b l h
  end.

(** Modelled from the spec: the decoder's rule for the document key of a
    field, which lives in the decoder package and not in this one.  A
    field uses the key its [plist] tag gives, and its own identifier when
    it has no such tag. *)
Definition plist_key (f : reflect.StructField) : string :=
  match reflect.Lookup (reflect.Tag f) "plist" with
  | Some key => key
  | None => reflect.Name f
  end.

(** The field of a struct type that a document key binds to. *)
Definition field_of_key (fields : list reflect.StructField) (key : string)
  : option reflect.StructField :=
  List.find (λ f, bool_decide (plist_key f = key)) fields.

(** [strconv.Itoa]: the decimal text of an integer, the form in which a
    track identifier appears as a key of the [Tracks] dictionary. *)
Definition Itoa (z : Z) : string := NilZero.string_of_int (Z.to_int z).

(** ** Package html: [UnescapeString]

    The accessor for text fields passes the field through the standard
    library's [html.UnescapeString].  The model follows that function's
    algorithm: text is copied up to each ampersand, where a character
    reference (numeric, or named and looked up in the entity tables) is
    replaced by the UTF-8 encoding of what it denotes.  The tables of
    named references ([entity]: one code point, [entity2]: two) are
    parameters; as in Go, a missing name yields zero.  The model reads
    from the original text where the library rewrites its buffer in
    place, which agrees as long as no replacement is longer than the
    reference it replaces, as is the case for the standard tables. *)

Module html.

Definition code (c : ascii) : Z := Z.of_N (N_of_ascii c).

Definition chr (z : Z) : ascii := ascii_of_N (Z.to_N (z mod 256)).

Definition between (lo hi c : ascii) : bool :=
  (code lo <=? code c) && (code c <=? code hi).

Definition isAlnum (c : ascii) : bool :=
  between "a" "z" c || between "A" "Z" c || between "0" "9" c.

(** Conversion to [rune], a 32-bit signed integer. *)
Definition int32 (z : Z) : Z := (z + 2 ^ 31) mod 2 ^ 32 - 2 ^ 31.

(** [utf8.EncodeRune]; an invalid rune is encoded as U+FFFD. *)
Definition EncodeRune (r : Z) : list ascii :=
  if (0 <=? r) && (r <=? 0x7F) then [chr r]
  else if (0 <=? r) && (r <=? 0x7FF) then
    [chr (Z.lor 0xC0 (Z.shiftr r 6)); chr (Z.lor 0x80 (Z.land r 0x3F))]
  else if (r <? 0) || (0x10FFFF <? r) || ((0xD800 <=? r) && (r <=? 0xDFFF)) then
    [chr 0xEF; chr 0xBF; chr 0xBD]
  else if r <=? 0xFFFF then
    [chr (Z.lor 0xE0 (Z.shiftr r 12));
     chr (Z.lor 0x80 (Z.land (Z.shiftr r 6) 0x3F));
     chr (Z.lor 0x80 (Z.land r 0x3F))]
  else
    [chr (Z.lor 0xF0 (Z.shiftr r 18));
     chr (Z.lor 0x80 (Z.land (Z.shiftr r 12) 0x3F));
     chr (Z.lor 0x80 (Z.land (Z.shiftr r 6) 0x3F));
     chr (Z.lor 0x80 (Z.land r 0x3F))].

(** Code points 0x80 to 0x9F of a numeric reference are read as
    Windows-1252 and replaced by their Unicode equivalents. *)
Definition replacementTable : list Z :=
  [0x20AC; 0x0081; 0x201A; 0x0192; 0x201E; 0x2026; 0x2020; 0x2021;
   0x02C6; 0x2030; 0x0160; 0x2039; 0x0152; 0x008D; 0x017D; 0x008F;
   0x0090; 0x2018; 0x2019; 0x201C; 0x201D; 0x2022; 0x2013; 0x2014;
   0x02DC; 0x2122; 0x0161; 0x203A; 0x0153; 0x009D; 0x017E; 0x0178].

Definition longestEntityWithoutSemicolon : nat := 6.

(** The digits of a numeric reference: [s] is the text from index [i]
    on, [x] the value so far.  Yields the value and the index after the
    reference; a semicolon that ends the digits is consumed. *)
Fixpoint digits (hex : bool) (s : list ascii) (x : Z) (i : nat) : Z * nat :=
  match s with
  | [] => (x, i)
  | c :: s' =>
      if hex && between "0" "9" c then
        digits hex s' (int32 (16 * x + code c - code "0")) (S i)
      else if hex && between "a" "f" c then
        digits hex s' (int32 (16 * x + code c - code "a" + 10)) (S i)
      else if hex && between "A" "F" c then
        digits hex s' (int32 (16 * x + code c - code "A" + 10)) (S i)
      else if negb hex && between "0" "9" c then
        digits hex s' (int32 (10 * x + code c - code "0")) (S i)
      else (x, if decide (c = ";"%char) then S i else i)
  end.

(** The end of a named reference: letters and digits from index [i] on,
    and the semicolon that may follow them. *)
Fixpoint nameEnd (s : list ascii) (i : nat) : nat :=
  match s with
  | [] => i
  | c :: s' =>
      if isAlnum c then nameEnd s' (S i)
      else if decide (c = ";"%char) then S i else i
  end.

Section Tables.

Variable entity : string → Z.
Variable entity2 : string → Z * Z.

(** The longest proper prefix of the name, of [j] characters at most and
    two at least, that is an entity on its own. *)
Fixpoint prefixEntity (entityName : list ascii) (j : nat) : option (Z * nat) :=
  match j with
  | 0%nat => None
  | S j' =>
      if (1 <? j)%nat then
        let x := entity (string_of_list_ascii (take j entityName)) in
        if decide (x ≠ 0) then Some (x, S j) else prefixEntity entityName j'
      else None
  end.

(** [unescapeEntity]: [s] starts with the ampersand.  Yields the bytes
    to emit and the number of bytes of [s] consumed. *)
Definition unescapeEntity (s : list ascii) : list ascii * nat :=
  let attribute := false in
  if decide (length s ≤ 1)%nat then (take 1 s, 1%nat)
  else if decide (s !! 1%nat = Some "#"%char) then
    if decide (length s ≤ 3)%nat then (take 1 s, 1%nat)
    else
      let hex := bool_decide (s !! 2%nat = Some "x"%char ∨ s !! 2%nat = Some "X"%char) in
      let i0 := if hex then 3%nat else 2%nat in
      let '(x, i) := digits hex (drop i0 s) 0 i0 in
      if decide (i ≤ 3)%nat then (take 1 s, 1%nat)
      else
        let x' :=
          if (0x80 <=? x) && (x <=? 0x9F)
          then nth (Z.to_nat (x - 0x80)) replacementTable 0
          else if (x =? 0) || ((0xD800 <=? x) && (x <=? 0xDFFF)) || (0x10FFFF <? x)
          then 0xFFFD
          else x in
        (EncodeRune x', i)
  else
    let i := nameEnd (drop 1 s) 1 in
    let entityName := take (i - 1) (drop 1 s) in
    let name := string_of_list_ascii entityName in
    let copy := (take i s, i) in
    if decide (length entityName = 0)%nat then copy
    else if attribute
              && bool_decide (last entityName ≠ Some ";"%char)
              && bool_decide (s !! i = Some "="%char) then copy
    else if decide (entity name ≠ 0) then (EncodeRune (entity name), i)
    else if decide ((entity2 name).1 ≠ 0) then
      (EncodeRune (entity2 name).1 ++ EncodeRune (entity2 name).2, i)
    else if negb attribute then
      let maxLen := Nat.min (length entityName - 1) longestEntityWithoutSemicolon in
      match prefixEntity entityName maxLen with
      | Some (x, n) => (EncodeRune x, n)
      | None => copy
      end
    else copy.

(** The main loop: every call consumes at least one byte, so a fuel of
    the length of the text is never exhausted. *)
Fixpoint unescape_loop (fuel : nat) (s : list ascii) : list ascii :=
  match fuel with
  | 0%nat => s
  | S fuel' =>
      match s with
      | [] => []
      | c :: s' =>
          if decide (c = "&"%char) then
            let '(out, n) := unescapeEntity s in
            out ++ unescape_loop fuel' (drop n s)
          else c :: unescape_loop fuel' s'
      end
  end.

Definition UnescapeString (s : string) : string :=
  string_of_list_ascii
    (unescape_loop (String.length s) (list_ascii_of_string s)).

End Tables.

(** An excerpt of the standard table of named references, enough for
    examples: the five references of XML, with and without the final
    semicolon where the standard has both. *)
Definition entity_excerpt (name : string) : Z :=
  if decide (name = "amp;") then 0x26
  else if decide (name = "amp") then 0x26
  else if decide (name = "lt;") then 0x3C
  else if decide (name = "lt") then 0x3C
  else if decide (name = "gt;") then 0x3E
  else if decide (name = "gt") then 0x3E
  else if decide (name = "quot;") then 0x22
  else if decide (name = "quot") then 0x22
  else if decide (name = "apos;") then 0x27
  else 0.

Definition entity2_none (name : string) : Z * Z := (0, 0).

(** [html.EscapeString]: the five characters [&], ['], [<], [>] and the
    double quote are replaced by the references [&amp;], [&#39;], [&lt;],
    [&gt;] and [&#34;]. *)
Fixpoint escape (s : list ascii) : list ascii :=
  match s with
  | [] => []
  | c :: s' =>
      (if decide (c = "&"%char) then list_ascii_of_string "&amp;"
       else if decide (c = "'"%char) then list_ascii_of_string "&#39;"
       else if decide (c = "<"%char) then list_ascii_of_string "&lt;"
       else if decide (c = ">"%char) then list_ascii_of_string "&gt;"
       else if decide (c = "034"%char) then list_ascii_of_string "&#34;"
       else [c]) ++ escape s'
  end.

Definition EscapeString (s : string) : string :=
  string_of_list_ascii (escape (list_ascii_of_string s)).

(** *** What decoding a text means

    The relation below says, without reference to the algorithm, what
    the text with its character references decoded is: every character
    but the ampersand stands for itself; a named reference [&name;] known
    to the tables stands for its one or two code points; a numeric
    reference, decimal [&#n;] or hexadecimal [&#xh;], stands for the code
    point of that number. *)

(** The value of a digit, decimal or hexadecimal. *)
Definition decimal_digit (c : ascii) : option Z :=
  if between "0" "9" c then Some (code c - code "0") else None.

Definition hex_digit (c : ascii) : option Z :=
  if between "0" "9" c then Some (code c - code "0")
  else if between "a" "f" c then Some (code c - code "a" + 10)
  else if between "A" "F" c then Some (code c - code "A" + 10)
  else None.

(** The number a sequence of digits writes, continuing from [acc]. *)
Fixpoint number (base : Z) (digit : ascii → option Z) (ds : list ascii) (acc : Z)
  : option Z :=
  match ds with
  | [] => Some acc
  | c :: ds' =>
      match digit c with
      | Some d => number base digit ds' (base * acc + d)
      | None => None
      end
  end.

(** The code point a numeric reference of value [v] denotes: the
    Windows-1252 range is mapped to Unicode, and what is no character
    (zero, a surrogate, a value beyond the last code point) to U+FFFD. *)
Definition charref (v : Z) : Z :=
  if (0x80 <=? v) && (v <=? 0x9F) then nth (Z.to_nat (v - 0x80)) replacementTable 0
  else if (v =? 0) || ((0xD800 <=? v) && (v <=? 0xDFFF)) || (0x10FFFF <? v) then 0xFFFD
  else v.

Inductive decodes (entity : string → Z) (entity2 : string → Z * Z)
  : list ascii → list ascii → Prop :=
| decodes_nil :
    decodes entity entity2 [] []
| decodes_char (c : ascii) (s r : list ascii) :
    c ≠ "&"%char →
    decodes entity entity2 s r →
    decodes entity entity2 (c :: s) (c :: r)
| decodes_named (name : list ascii) (x : Z) (s r : list ascii) :
    name ≠ [] →
    forallb isAlnum name = true →
    entity (string_of_list_ascii (name ++ [";"%char])) = x →
    x ≠ 0 →
    decodes entity entity2 s r →
    decodes entity entity2 ("&"%char :: name ++ ";"%char :: s) (EncodeRune x ++ r)
| decodes_named2 (name : list ascii) (x y : Z) (s r : list ascii) :
    name ≠ [] →
    forallb isAlnum name = true →
    entity (string_of_list_ascii (name ++ [";"%char])) = 0 →
    entity2 (string_of_list_ascii (name ++ [";"%char])) = (x, y) →
    x ≠ 0 →
    decodes entity entity2 s r →
    decodes entity entity2 ("&"%char :: name ++ ";"%char :: s)
      (EncodeRune x ++ EncodeRune y ++ r)
| decodes_decimal (ds : list ascii) (v : Z) (s r : list ascii) :
    ds ≠ [] →
    number 10 decimal_digit ds 0 = Some v →
    v < 2 ^ 31 →
    decodes entity entity2 s r →
    decodes entity entity2 ("&"%char :: "#"%char :: ds ++ ";"%char :: s)
      (EncodeRune (charref v) ++ r)
| decodes_hex (X : ascii) (hs : list ascii) (v : Z) (s r : list ascii) :
    X = "x"%char ∨ X = "X"%char →
    hs ≠ [] →
    number 16 hex_digit hs 0 = Some v →
    v < 2 ^ 31 →
    decodes entity entity2 s r →
    decodes entity entity2 ("&"%char :: "#"%char :: X :: hs ++ ";"%char :: s)
      (EncodeRune (charref v) ++ r).

(** *** UTF-8

    What a sequence of one to four bytes denotes when read as UTF-8, and
    the code points that are characters (scalar values). *)
Definition utf8_value (bs : list ascii) : option Z :=
  let cont (c : ascii) := Z.land (code c) 0x3F in
  let is_cont (c : ascii) := Z.land (code c) 0xC0 =? 0x80 in
  match bs with
  | [a] => if code a <? 0x80 then Some (code a) else None
  | [a; b] =>
      if (Z.land (code a) 0xE0 =? 0xC0) && is_cont b
      then Some (Z.lor (Z.shiftl (Z.land (code a) 0x1F) 6) (cont b))
      else None
  | [a; b; c] =>
      if (Z.land (code a) 0xF0 =? 0xE0) && is_cont b && is_cont c
      then Some (Z.lor (Z.shiftl (Z.land (code a) 0x0F) 12)
                   (Z.lor (Z.shiftl (cont b) 6) (cont c)))
      else None
  | [a; b; c; d] =>
      if (Z.land (code a) 0xF8 =? 0xF0) && is_cont b && is_cont c && is_cont d
      then Some (Z.lor (Z.shiftl (Z.land (code a) 0x07) 18)
                   (Z.lor (Z.shiftl (cont b) 12)
                      (Z.lor (Z.shiftl (cont c) 6) (cont d))))
      else None
  | _ => None
  end.

Definition is_scalar (x : Z) : bool :=
  (0 <=? x) && (x <=? 0x10FFFF) && negb ((0xD800 <=? x) && (x <=? 0xDFFF)).

(** [P] on every integer from [lo] up to [lo + 2^k - 1]. *)
Fixpoint all_range (k : nat) (lo : Z) (P : Z → bool) : bool :=
  match k with
  | O => P lo
  | S k' => all_range k' lo P && all_range k' (lo + 2 ^ Z.of_nat k') P
  end.

(** Tables that know the three named references [html.EscapeString]
    writes. *)
Definition knows_amp_lt_gt (entity : string → Z) : Prop :=
  entity "amp;" = 0x26 ∧ entity "lt;" = 0x3C ∧ entity "gt;" = 0x3E.

End html.

(** ** Typed field access by name *)

#[global] Instance result_bind : MBind result :=
  λ A B k r, match r with Ret a => k a | Panic v => Panic v end.

(** [func (t *Track) String() string] *)
Definition Track_String (t : Track) : string := Name t.

(** [reflect.ValueOf(t).Field(i)]: panics when there is no such field. *)
Definition Value_Field (t : Track) (i : nat) : result Value :=
  match Track_values t !! i with
  | Some v => Ret v
  | None => Panic "reflect: Field index out of range"
  end.

(** [reflect.ValueOf(t).FieldByName(name)]: the field the type finds under
    that name, and the zero [Value] when it finds none. *)
Definition Value_FieldByName (t : Track) (name : string) : result Value :=
  match reflect.FieldByName Track_type name with
  | Some (i, _) => Value_Field t i
  | None => Ret VInvalid
  end.

(** [func (t Track) GetString(name string) string], over the unescaping
    function it calls. *)
Definition Track_GetString (UnescapeString : string → string)
  (t : Track) (name : string) : result string :=
  match reflect.FieldByName Track_type name with
  | None => Panic "invalid field"
  | Some (_, ft) =>
      if decide (reflect.Type_ ft ≠ reflect.String) then Panic "field is not a string"
      else
        f ← Value_FieldByName t name;
        Ret (UnescapeString (Value_String f))
  end.

(** [func (t Track) GetInt(name string) int] *)
Definition Track_GetInt (t : Track) (name : string) : result Z :=
  match reflect.FieldByName Track_type name with
  | None => Panic "invalid field"
  | Some (_, ft) =>
      if decide (reflect.Type_ ft ≠ reflect.Int) then Panic "field is not an int"
      else
        f ← Value_FieldByName t name;
        Value_Int f
  end.

(** [func (t Track) GetBool(name string) bool] *)
Definition Track_GetBool (t : Track) (name : string) : result bool :=
  match reflect.FieldByName Track_type name with
  | None => Panic "invalid field"
  | Some (_, ft) =>
      if decide (reflect.Type_ ft ≠ reflect.Bool) then Panic "field is not a bool"
      else
        f ← Value_FieldByName t name;
        Value_Bool f
  end.

(** The value a name denotes on a track, when it names a field. *)
Definition field_value (t : Track) (name : string) : option Value :=
  match reflect.FieldByName Track_type name with
  | Some (i, _) => Track_values t !! i
  | None => None
  end.

(** The declared kind of the field a name denotes. *)
Definition field_kind (name : string) : option reflect.Kind :=
  match reflect.FieldByName Track_type name with
  | Some (_, ft) => Some (reflect.Type_ ft)
  | None => None
  end.

(** ** Auxiliary notions used in the statements *)

(** The fields of [Track] by declared type, each name with the
    projection of the record it stands for. *)
Definition Track_string_fields : list (string * (Track → string)) :=
  [("Name", Name); ("Artist", Artist); ("Composer", Composer);
   ("Genre", Genre); ("Kind", Kind); ("ContentRating", ContentRating);
   ("Album", Album); ("AlbumArtist", AlbumArtist); ("SortName", SortName);
   ("SortArtist", SortArtist); ("SortAlbumArtist", SortAlbumArtist);
   ("SortAlbum", SortAlbum); ("SortComposer", SortComposer);
   ("Series", Series); ("Comments", Comments); ("Episode", Episode);
   ("PersistentID", PersistentID); ("TrackType", TrackType);
   ("Location", Location); ("Grouping", Grouping)].

Definition Track_int_fields : list (string * (Track → Z)) :=
  [("TrackID", TrackID); ("Year", Year); ("Size", Size); ("BPM", BPM);
   ("TrackNumber", TrackNumber); ("TrackCount", TrackCount);
   ("DiscNumber", DiscNumber); ("DiscCount", DiscCount); ("Rating", Rating);
   ("AlbumRating", AlbumRating); ("TotalTime", TotalTime);
   ("BitRate", BitRate); ("SampleRate", SampleRate);
   ("VolumeAdjustment", VolumeAdjustment); ("PlayCount", PlayCount);
   ("PlayDate", PlayDate); ("SkipCount", SkipCount);
   ("ArtworkCount", ArtworkCount); ("EpisodeOrder", EpisodeOrder);
   ("Season", Season); ("FileType", FileType); ("VideoHeight", VideoHeight);
   ("VideoWidth", VideoWidth); ("FileFolderCount", FileFolderCount);
   ("LibraryFolderCount", LibraryFolderCount)].

Definition Track_bool_fields : list (string * (Track → bool)) :=
  [("PartOfGaplessAlbum", PartOfGaplessAlbum);
   ("RatingComputed", RatingComputed); ("Disabled", Disabled);
   ("AlbumRatingComputed", AlbumRatingComputed); ("Clean", Clean);
   ("Protected", Protected); ("Purchased", Purchased); ("TVShow", TVShow);
   ("Podcast", Podcast); ("ITunesU", ITunesU); ("Unplayed", Unplayed);
   ("Movie", Movie); ("MusicVideo", MusicVideo); ("HD", HD);
   ("HasVideo", HasVideo); ("Compilation", Compilation)].

(** [name] is a field of [Track] declared with kind [k]. *)
Definition Track_has_field (name : string) (k : reflect.Kind) : Prop :=
  ∃ tag, reflect.field name k tag ∈ Track_type.

(** A sequence of element assignments [s[i] = t] on a slice. *)
Fixpoint slice_set_all (s : slice) (ws : list (nat * Track)) (h : heap) : result heap :=
  match ws with
  | [] => Ret h
  | (i, t) :: ws' => h' ← slice_set s i t h; slice_set_all s ws' h'
  end.

(** The map pointer of a library points into the heap (or is nil), as
    every pointer of a running program does. *)
Definition valid_library (h : heap) (l : Library) : Prop :=
  ∀ p, Tracks l = Some p → is_Some (h !! p).

(** A decoder that, when it fails, leaves its target as it found it. *)
Definition leaves_target_on_error {store : Type}
  (Unmarshal : list byte → Library → store → Library * option goerror * store) : Prop :=
  ∀ b l h, (Unmarshal b l h).1.2 ≠ None → (Unmarshal b l h).1.1 = l.

(** Every key of the table is the decimal text of the identifier of the
    track stored under it, as in a library file written by iTunes. *)
Definition keyed_by_TrackID (m : gmap string Track) : Prop :=
  ∀ k t, m !! k = Some t → Itoa (TrackID t) = k.

(** A field uses its own identifier as document key, or the key its tag
    spells out. *)
Definition key_is_name_or_tag (f : reflect.StructField) : Prop :=
  (reflect.Lookup (reflect.Tag f) "plist" = None ∧ plist_key f = reflect.Name f)
  ∨ (reflect.Lookup (reflect.Tag f) "plist" = Some (plist_key f)).

(** The document key of the field called [name] in a struct type. *)
Definition key_of (fields : list reflect.StructField) (name : string) : option string :=
  match reflect.FieldByName fields name with
  | Some (_, f) => Some (plist_key f)
  | None => None
  end.

(** Updates of single fields. *)
Definition with_Tracks (m : mapref) (l : Library) : Library :=
  {| MajorVersion := MajorVersion l;
     MinorVersion := MinorVersion l;
     Date := Date l;
     ApplicationVersion := ApplicationVersion l;
     Features := Features l;
     ShowContentRatings := ShowContentRatings l;
     MusicFolder := MusicFolder l;
     LibraryPersistentID := LibraryPersistentID l;
     Tracks := m;
     Playlists := Playlists l |}.

Definition with_MajorVersion (v : Z) (l : Library) : Library :=
  {| MajorVersion := v;
     MinorVersion := MinorVersion l;
     Date := Date l;
     ApplicationVersion := ApplicationVersion l;
     Features := Features l;
     ShowContentRatings := ShowContentRatings l;
     MusicFolder := MusicFolder l;
     LibraryPersistentID := LibraryPersistentID l;
     Tracks := Tracks l;
     Playlists := Playlists l |}.

Definition with_MinorVersion (v : Z) (l : Library) : Library :=
  {| MajorVersion := MajorVersion l;
     MinorVersion := v;
     Date := Date l;
     ApplicationVersion := ApplicationVersion l;
     Features := Features l;
     ShowContentRatings := ShowContentRatings l;
     MusicFolder := MusicFolder l;
     LibraryPersistentID := LibraryPersistentID l;
     Tracks := Tracks l;
     Playlists := Playlists l |}.

(** ** Sample data *)

(** The zero [Track] with [TrackID] and [Name] replaced; the pattern
    names its other sixty-four fields. *)
Definition sample_Track (id : Z) (name : string) : Track :=
  Eval cbv in
  match zero_Track with
  | mkTrack _ _ a b c d e f g h i j k l m n o p q r s t u v w x y z
      a1 b1 c1 d1 e1 f1 g1 h1 i1 j1 k1 l1 m1 n1 o1 p1 q1 r1 s1 t1 u1 v1 w1 x1 y1 z1
      a2 b2 c2 d2 e2 f2 g2 h2 i2 j2 k2 l2 =>
      λ id name,
      mkTrack id name a b c d e f g h i j k l m n o p q r s t u v w x y z
        a1 b1 c1 d1 e1 f1 g1 h1 i1 j1 k1 l1 m1 n1 o1 p1 q1 r1 s1 t1 u1 v1 w1 x1 y1 z1
        a2 b2 c2 d2 e2 f2 g2 h2 i2 j2 k2 l2
  end id name.

(** A heap with one table, holding one track under the key ["7"]. *)
Definition sample_heap : heap :=
  {[ 1%positive := MapObj {[ "7" := sample_Track 7 "Rock &amp; Roll" ]} ]}.

Definition sample_Library : Library := with_Tracks (Some 1%positive) zero_Library.

(** A heap whose one table stores, under the key ["1"], a track whose
    identifier is 2. *)
Definition mislabelled_heap : heap :=
  {[ 1%positive := MapObj {[ "1" := sample_Track 2 "B side" ]} ]}.

(** A decoder in miniature that, like a decoder working down the
    document, stores each value into the target as soon as it has read
    it: the first byte is the major version, the second the minor one,
    and a missing byte is an error. *)
Definition stream_Unmarshal (b : list byte) (l : Library) (h : unit)
  : Library * option goerror * unit :=
  match b with
  | [] => (l, Some (errorString "unexpected EOF"), h)
  | x :: b' =>
      let l1 := with_MajorVersion (Z.of_N (Byte.to_N x)) l in
      match b' with
      | [] => (l1, Some (errorString "unexpected EOF"), h)
      | y :: _ => (with_MinorVersion (Z.of_N (Byte.to_N y)) l1, None, h)
      end
  end.

(** A decoder that builds the whole value aside and assigns the target
    only on success. *)
Definition atomic_Unmarshal (b : list byte) (l : Library) (h : unit)
  : Library * option goerror * unit :=
  match stream_Unmarshal b zero_Library h with
  | (l', None, h') => (l', None, h')
  | (_, Some e, h') => (l, Some e, h')
  end.

(** A reader whose second [Read] fails. *)
Definition broken_Reader : Reader :=
  Read_more [x01%byte] (Read_last [] (errorString "connection reset")).

(** ** The decoder

    [ReadFromXML] hands the bytes to [plist.Unmarshal] of the decoder
    package (github.com/dhowden/plist), which is outside this repository.
    The model below follows the way that decoder works: it scans the text
    for tags, checks that the document opens as a plist, and on a
    dictionary stores each value into the field of the target that the
    key names, as soon as it has read the value.  The model covers a
    dictionary whose entries are integers and strings of the [Library];
    where the document goes beyond that (other kinds of value, keys that
    name no field) the model stops with [plist.outside_model], where the
    decoder itself goes on. *)

Definition with_ApplicationVersion (v : string) (l : Library) : Library :=
  {| MajorVersion := MajorVersion l;
     MinorVersion := MinorVersion l;
     Date := Date l;
     ApplicationVersion := v;
     Features := Features l;
     ShowContentRatings := ShowContentRatings l;
     MusicFolder := MusicFolder l;
     LibraryPersistentID := LibraryPersistentID l;
     Tracks := Tracks l;
     Playlists := Playlists l |}.

Definition with_Features (v : Z) (l : Library) : Library :=
  {| MajorVersion := MajorVersion l;
     MinorVersion := MinorVersion l;
     Date := Date l;
     ApplicationVersion := ApplicationVersion l;
     Features := v;
     ShowContentRatings := ShowContentRatings l;
     MusicFolder := MusicFolder l;
     LibraryPersistentID := LibraryPersistentID l;
     Tracks := Tracks l;
     Playlists := Playlists l |}.

Definition with_MusicFolder (v : string) (l : Library) : Library :=
  {| MajorVersion := MajorVersion l;
     MinorVersion := MinorVersion l;
     Date := Date l;
     ApplicationVersion := ApplicationVersion l;
     Features := Features l;
     ShowContentRatings := ShowContentRatings l;
     MusicFolder := v;
     LibraryPersistentID := LibraryPersistentID l;
     Tracks := Tracks l;
     Playlists := Playlists l |}.

Definition with_LibraryPersistentID (v : string) (l : Library) : Library :=
  {| MajorVersion := MajorVersion l;
     MinorVersion := MinorVersion l;
     Date := Date l;
     ApplicationVersion := ApplicationVersion l;
     Features := Features l;
     ShowContentRatings := ShowContentRatings l;
     MusicFolder := MusicFolder l;
     LibraryPersistentID := v;
     Tracks := Tracks l;
     Playlists := Playlists l |}.

Module plist.

(** The text up to the first [c], and the text from that [c] on. *)
Fixpoint cut (c : ascii) (s : string) : option (string * string) :=
  match s with
  | EmptyString => None
  | String a s' =>
      if decide (a = c) then Some (EmptyString, s)
      else match cut c s' with
           | Some (before, from) => Some (String a before, from)
           | None => None
           end
  end.

(** The text up to and with the first [c], and the text after it. *)
Fixpoint cut_after (c : ascii) (s : string) : option (string * string) :=
  match s with
  | EmptyString => None
  | String a s' =>
      if decide (a = c) then Some (String a EmptyString, s')
      else match cut_after c s' with
           | Some (upto, after) => Some (String a upto, after)
           | None => None
           end
  end.

(** [next]: the text before the next tag, the tag with its angle
    brackets, and the text after it; when there is no further tag, the
    whole text and an empty tag. *)
Definition next (data : string) : string * string * string :=
  match cut "<" data with
  | None => (data, "", "")
  | Some (skip, from) =>
      match cut_after ">" from with
      | None => (data, "", "")
      | Some (tag, rest) => (skip, tag, rest)
      end
  end.

(** [strconv.Atoi]: an optional sign and decimal digits, within the
    range of a 64-bit integer. *)
Definition Atoi (s : string) : option Z :=
  let '(negative, digits) :=
    match s with
    | String "-" s' => (true, s')
    | String "+" s' => (false, s')
    | _ => (false, s)
    end in
  match list_ascii_of_string digits with
  | [] => None
  | ds =>
      match html.number 10 html.decimal_digit ds 0 with
      | Some v =>
          let z := if negative then - v else v in
          if (- 2 ^ 63 <=? z) && (z <? 2 ^ 63) then Some z else None
      | None => None
      end
  end.

(** What the model answers where the document leaves the part of the
    format it covers. *)
Definition outside_model : goerror := errorString "outside the model of the decoder".

(** The field of [Library] a key of the dictionary names, with its
    index. *)
Fixpoint field_from (i : nat) (fields : list reflect.StructField) (key : string)
  : option (nat * reflect.StructField) :=
  match fields with
  | [] => None
  | f :: fields' =>
      if decide (plist_key f = key) then Some (i, f)
      else field_from (S i) fields' key
  end.

(** [Value.SetInt] and [Value.SetString] on the field of that index. *)
Definition SetInt (i : nat) (z : Z) (l : Library) : Library :=
  match i with
  | 0%nat => with_MajorVersion z l
  | 1%nat => with_MinorVersion z l
  | 4%nat => with_Features z l
  | _ => l
  end.

Definition SetString (i : nat) (s : string) (l : Library) : Library :=
  match i with
  | 3%nat => with_ApplicationVersion s l
  | 6%nat => with_MusicFolder s l
  | 7%nat => with_LibraryPersistentID s l
  | _ => l
  end.

(** The value of one entry, decoded into field [i] of the target: the
    target as it is afterwards, and the rest of the text or an error. *)
Definition unmarshalField (data : string) (i : nat) (f : reflect.StructField)
  (l : Library) : Library * (goerror + string) :=
  let '(_, tag, data) := next data in
  if decide (tag = "") then (l, inl (errorString "unexpected end of data"))
  else if decide (tag = "<string>") then
    if decide (reflect.Type_ f ≠ reflect.String) then
      (l, inl (errorString "cannot unmarshal <string> into non-string"))
    else
      let '(body, etag, data) := next data in
      if decide (etag = "") then (l, inl (errorString "eof inside <string>"))
      else if decide (etag ≠ "</string>") then
        (l, inl (errorString ("expected </string> but got " +:+ etag)))
      else (SetString i body l, inr data)
  else if decide (tag = "<integer>") then
    if decide (reflect.Type_ f ≠ reflect.Int) then
      (l, inl (errorString "cannot unmarshal <integer> into non-int"))
    else
      let '(body, etag, data) := next data in
      if decide (etag = "") then (l, inl (errorString "eof inside <integer>"))
      else if decide (etag ≠ "</integer>") then
        (l, inl (errorString ("expected </integer> but got " +:+ etag)))
      else
        match Atoi body with
        | Some z => (SetInt i z l, inr data)
        | None => (l, inl (errorString ("non-integer in <integer> tag: " +:+ body)))
        end
  else (l, inl outside_model).

(** The entries of a dictionary, one after the other, up to its closing
    tag.  Every entry consumes text, so fuel for the length of the text
    is never used up ([None]). *)
Fixpoint dict (fuel : nat) (data : string) (l : Library)
  : option (Library * (goerror + string)) :=
  match fuel with
  | 0%nat => None
  | S fuel' =>
      let '(_, tag, data) := next data in
      if decide (tag = "") then Some (l, inl (errorString "eof inside <dict>"))
      else if decide (tag = "</dict>") then Some (l, inr data)
      else if decide (tag ≠ "<key>") then
        Some (l, inl (errorString ("unexpected tag " +:+ tag +:+ " inside <dict>")))
      else
        let '(body, tag, data) := next data in
        if decide (tag = "") then Some (l, inl (errorString "eof inside <dict>"))
        else if decide (tag ≠ "</key>") then
          Some (l, inl (errorString ("unexpected tag " +:+ tag +:+ " inside <dict>")))
        else
          match field_from 0 Library_type body with
          | None => Some (l, inl outside_model)
          | Some (i, f) =>
              match unmarshalField data i f l with
              | (l', inl err) => Some (l', inl err)
              | (l', inr data') => dict fuel' data' l'
              end
          end
  end.

(** The value of the document, decoded into the [Library]. *)
Definition unmarshalValue (data : string) (l : Library) : Library * (goerror + string) :=
  let '(_, tag, data) := next data in
  if decide (tag = "") then (l, inl (errorString "unexpected end of data"))
  else if decide (tag = "<dict>") then
    match dict (S (String.length data)) data l with
    | Some r => r
    | None => (l, inl outside_model)
    end
  else (l, inl outside_model).

(** [plist.Unmarshal(data, &l)]: after an optional XML declaration and
    document type the text must open a plist, hold one value and close
    the plist.  The decoder allocates nothing in the part the model
    covers, so the memory is handed back as it came. *)
Definition Unmarshal {store : Type} (b : list byte) (l : Library) (h : store)
  : Library * option goerror * store :=
  let data := string_of_list_byte b in
  let '(_, tag, data) := next data in
  let '(tag, data) :=
    if String.prefix "<?xml" tag then let '(_, tag', data') := next data in (tag', data')
    else (tag, data) in
  let '(tag, data) :=
    if String.prefix "<!DOCTYPE" tag then let '(_, tag', data') := next data in (tag', data')
    else (tag, data) in
  if negb (String.prefix "<plist" tag) then (l, Some (errorString "not a plist"), h)
  else
    match unmarshalValue data l with
    | (l', inl err) => (l', Some err, h)
    | (l', inr data') =>
        let '(_, tag, _) := next data' in
        if decide (tag = "</plist>") then (l', None, h)
        else (l', Some (errorString "junk on end of plist"), h)
    end.

End plist.

(** A library file cut short after its first two entries. *)
Definition truncated_plist : string :=
  "<?xml version='1.0' encoding='UTF-8'?>" +:+
  "<!DOCTYPE plist PUBLIC '-//Apple Computer//DTD PLIST 1.0//EN' " +:+
  "'http://www.apple.com/DTDs/PropertyList-1.0.dtd'>" +:+
  "<plist version='1.0'><dict>" +:+
  "<key>Major Version</key><integer>1</integer>" +:+
  "<key>Application Version</key><string>12.9.5.5</string>".

(** ** The claims that do not hold as stated *)

(** On a document the decoder rejects, [ReadFromXML] returns the
    decoder's error with a library that holds nothing of the document.
    The decoder is the model above; its answer [plist.outside_model] is
    no rejection by the decoder and is left out. *)
Definition no_partial_Library : Prop :=
  ∀ (r : Reader) (b : list byte) (e : goerror),
    ReadAll r = (b, None) →
    (plist.Unmarshal b zero_Library ()).1.2 = Some e →
    e ≠ plist.outside_model →
    (ReadFromXML plist.Unmarshal r ()).1 = (zero_Library, Some e).

(** A present key yields, without error, a track whose identifier is
    that key; an absent key yields an error. *)
Definition Track_has_requested_TrackID : Prop :=
  ∀ (h : heap) (l : Library) (k : string),
    (is_Some (map_contents h (Tracks l) !! k) →
       ∃ t, Library_Track l k h = (t, None) ∧ Itoa (TrackID t) = k)
    ∧ (map_contents h (Tracks l) !! k = None →
       ∃ e, (Library_Track l k h).2 = Some e).

(** * Properties *)

(** ** Lookup by identifier *)

Lemma Library_Track_eq (l : Library) (k : string) (h : heap) :
  Library_Track l k h =
    match map_contents h (Tracks l) !! k with
    | Some t => (t, None)
    | None => (zero_Track, Some (Errorf "no track with id: " k))
    end.
Proof.
  unfold Library_Track, mapaccess2.
  destruct (map_contents h (Tracks l) !! k); reflexivity.
Qed.

(** ** The loop of [AllTracks] *)

(** While the capacity lasts, the loop writes the values one after the
    other into the array the slice already has; the slice keeps its
    pointer and its capacity. *)
Lemma AllTracks_loop_in_place (kvs : list (string * Track)) :
  ∀ (p : loc) (k c : nat) (a : list Track) (h : heap),
    h !! p = Some (TrackArr a) →
    length a = c →
    (k + length kvs ≤ c)%nat →
    AllTracks_loop kvs {| ptr := Some p; len := k; cap := c |} h =
      ({| ptr := Some p; len := k + length kvs; cap := c |},
       <[p := TrackArr (take k a ++ kvs.*2 ++ drop (k + length kvs) a)]> h).
Proof.
  induction kvs as [|[key t] kvs IH]; intros p k c a h Hp Hlen Hk; simpl in *.
  - rewrite Nat.add_0_r, take_drop, insert_id by done. reflexivity.
  - unfold append, append_with; simpl.
    rewrite decide_True by lia. rewrite Hp.
    rewrite (IH p (S k) c (<[k:=t]> a)).
    + f_equal; [f_equal; lia|].
      rewrite insert_insert_eq. do 2 f_equal.
      rewrite (take_S_r _ _ t) by (apply list_lookup_insert_eq; lia).
      rewrite take_insert_ge by lia.
      rewrite drop_insert_lt by lia.
      rewrite <- app_assoc. simpl.
      replace (S (k + length kvs)) with (k + S (length kvs))%nat by lia.
      reflexivity.
    + apply lookup_insert_eq.
    + rewrite length_insert. done.
    + lia.
Qed.

Section MapIteration.

(** Whatever order the runtime iterates a map in, it visits every entry
    once. *)
Variable mapiter : gmap string Track → list (string * Track).
Hypothesis mapiter_perm : ∀ m, mapiter m ≡ₚ map_to_list m.

Lemma mapiter_length (m : gmap string Track) : length (mapiter m) = size m.
Proof. rewrite mapiter_perm. apply length_map_to_list. Qed.

Lemma mapiter_empty (m : gmap string Track) : size m = 0%nat → mapiter m = [].
Proof.
  intros Hsize. apply length_zero_iff_nil. rewrite mapiter_length. exact Hsize.
Qed.

(** The result of [AllTracks] in closed form: for a library without
    tracks the empty slice at [zerobase] and the heap as it was,
    otherwise a slice over a new array that holds the values in iteration
    order. *)
Lemma Library_AllTracks_eq (l : Library) (h : heap) :
  let m := map_contents h (Tracks l) in
  let p := newobject h in
  Library_AllTracks mapiter l h =
    if decide (size m = 0)%nat
    then ({| ptr := Some zerobase; len := 0; cap := 0 |}, h)
    else ({| ptr := Some p; len := size m; cap := size m |},
          <[p := TrackArr (mapiter m).*2]> h).
Proof.
  intros m p. unfold Library_AllTracks, make_slice, map_len. fold m. fold p.
  destruct (decide (size m = 0)%nat) as [Hsize|Hsize].
  - rewrite (mapiter_empty m Hsize), Hsize. reflexivity.
  - rewrite (AllTracks_loop_in_place _ p 0 (size m) (replicate (size m) zero_Track)).
    + rewrite insert_insert_eq, mapiter_length. simpl.
      rewrite drop_ge by (rewrite length_replicate; lia).
      rewrite app_nil_r. reflexivity.
    + apply lookup_insert_eq.
    + apply length_replicate.
    + rewrite mapiter_length. lia.
Qed.

Lemma Library_AllTracks_elems (l : Library) (h : heap) :
  let '(s, h') := Library_AllTracks mapiter l h in
  slice_elems h' s = (mapiter (map_contents h (Tracks l))).*2.
Proof.
  rewrite Library_AllTracks_eq.
  destruct (decide (size (map_contents h (Tracks l)) = 0)%nat) as [Hsize|Hsize];
    unfold slice_elems, array_at; cbn [ptr len].
  - rewrite (mapiter_empty _ Hsize). reflexivity.
  - rewrite lookup_insert_eq.
    apply take_ge. rewrite length_fmap, mapiter_length. done.
Qed.

Lemma Library_AllTracks_len (l : Library) (h : heap) :
  len (Library_AllTracks mapiter l h).1 = size (map_contents h (Tracks l))
  ∧ cap (Library_AllTracks mapiter l h).1 = size (map_contents h (Tracks l)).
Proof.
  rewrite Library_AllTracks_eq.
  destruct (decide (size (map_contents h (Tracks l)) = 0)%nat) as [->|Hsize];
    split; reflexivity.
Qed.

End MapIteration.

(** ** Frame lemmas for the heap *)

Lemma newobject_not_allocated (h : heap) : h !! newobject h = None.
Proof.
  apply not_elem_of_dom. intros Hin.
  apply (is_fresh ({[zerobase]} ∪ dom h)). apply elem_of_union_r, Hin.
Qed.

Lemma newobject_not_zerobase (h : heap) : newobject h ≠ zerobase.
Proof.
  intros Heq. apply (is_fresh ({[zerobase]} ∪ dom h)).
  apply elem_of_union_l, elem_of_singleton. exact Heq.
Qed.

(** A slice without elements admits no element assignment. *)
Lemma slice_set_all_empty (s : slice) (ws : list (nat * Track)) (h h' : heap) :
  len s = 0%nat → slice_set_all s ws h = Ret h' → h' = h.
Proof.
  intros Hlen. destruct ws as [|[i t] ws]; simpl.
  - intros [= <-]. reflexivity.
  - unfold slice_set. rewrite Hlen.
    destruct (ptr s); [rewrite decide_False by lia|]; discriminate.
Qed.

Lemma map_contents_agree (h1 h2 : heap) (m : mapref) :
  (∀ q, m = Some q → h1 !! q = h2 !! q) →
  map_contents h1 m = map_contents h2 m.
Proof.
  intros H. destruct m as [q|]; simpl; [|reflexivity].
  rewrite (H q eq_refl). reflexivity.
Qed.

(** An element assignment touches the backing array of the slice and
    nothing else. *)
Lemma slice_set_frame (s : slice) (i : nat) (t : Track) (h h' : heap) (q : loc) :
  slice_set s i t h = Ret h' → ptr s ≠ Some q → h' !! q = h !! q.
Proof.
  unfold slice_set. intros Hset Hq.
  destruct (ptr s) as [p|]; [|discriminate].
  destruct (decide (i < len s)%nat); [|discriminate].
  injection Hset as <-. apply lookup_insert_ne. congruence.
Qed.

Lemma slice_set_all_frame (s : slice) (ws : list (nat * Track)) :
  ∀ (h h' : heap) (q : loc),
    slice_set_all s ws h = Ret h' → ptr s ≠ Some q → h' !! q = h !! q.
Proof.
  induction ws as [|[i t] ws IH]; intros h h' q Hset Hq; simpl in Hset.
  - injection Hset as <-. reflexivity.
  - destruct (slice_set s i t h) as [h1|v] eqn:E1; [|discriminate].
    simpl in Hset. rewrite (IH h1 h' q Hset Hq).
    eapply slice_set_frame; eassumption.
Qed.

Section AllTracksFrame.

Variable mapiter : gmap string Track → list (string * Track).
Hypothesis mapiter_perm : ∀ m, mapiter m ≡ₚ map_to_list m.

Lemma Library_AllTracks_ptr (l : Library) (h : heap) :
  ptr (Library_AllTracks mapiter l h).1 ≠ None.
Proof.
  rewrite (Library_AllTracks_eq mapiter mapiter_perm).
  destruct (decide (size (map_contents h (Tracks l)) = 0)%nat); discriminate.
Qed.

(** The call changes no object that existed before it. *)
Lemma Library_AllTracks_frame (l : Library) (h : heap) (q : loc) :
  is_Some (h !! q) → (Library_AllTracks mapiter l h).2 !! q = h !! q.
Proof.
  intros [o Ho]. rewrite (Library_AllTracks_eq mapiter mapiter_perm).
  destruct (decide (size (map_contents h (Tracks l)) = 0)%nat); cbn [snd];
    [reflexivity|].
  apply lookup_insert_ne. intros Hp.
  rewrite <- Hp, newobject_not_allocated in Ho. discriminate.
Qed.

(** Nor do assignments to the elements of the slice it returns. *)
Lemma Library_AllTracks_writes_frame (l : Library) (h h' : heap)
  (ws : list (nat * Track)) (q : loc) :
  slice_set_all (Library_AllTracks mapiter l h).1 ws (Library_AllTracks mapiter l h).2
  = Ret h' →
  is_Some (h !! q) → h' !! q = h !! q.
Proof.
  intros Hset Hq.
  rewrite <- (Library_AllTracks_frame l h q Hq).
  revert Hset. rewrite (Library_AllTracks_eq mapiter mapiter_perm).
  destruct (decide (size (map_contents h (Tracks l)) = 0)%nat); cbn [fst snd];
    intros Hset.
  - apply slice_set_all_empty in Hset as ->; reflexivity.
  - apply (slice_set_all_frame _ ws _ h' q Hset). cbn [ptr]. intros [= Hp].
    destruct Hq as [o Ho]. rewrite <- Hp, newobject_not_allocated in Ho.
    discriminate.
Qed.

End AllTracksFrame.

(** The sample table is keyed by the identifiers of its tracks. *)
Lemma sample_keyed_by_TrackID :
  keyed_by_TrackID (map_contents sample_heap (Tracks sample_Library)).
Proof.
  intros k t. unfold sample_heap, sample_Library. cbn.
  rewrite lookup_singleton_eq.
  intros [<- <-]%lookup_singleton_Some. reflexivity.
Qed.

(** ** C2, C9: lookup by identifier *)

(** C2, as stated, fails: a table may store under a key a track whose
    [TrackID] is another number, and [Track] returns what is stored
    without looking at its [TrackID].  Here the key ["1"] holds the track
    numbered 2. *)
Lemma Track_TrackID_may_differ :
  map_contents mislabelled_heap (Tracks sample_Library) !! "1"
  = Some (sample_Track 2 "B side")
  ∧ Library_Track sample_Library "1" mislabelled_heap
    = (sample_Track 2 "B side", None)
  ∧ Itoa (TrackID (sample_Track 2 "B side")) = "2"
  ∧ ¬ Track_has_requested_TrackID.
Proof.
  assert (Hstored : map_contents mislabelled_heap (Tracks sample_Library) !! "1"
                    = Some (sample_Track 2 "B side")).
  { unfold mislabelled_heap, sample_Library. cbn.
    rewrite lookup_singleton_eq. apply lookup_singleton_eq. }
  assert (Hret : Library_Track sample_Library "1" mislabelled_heap
                 = (sample_Track 2 "B side", None)).
  { rewrite Library_Track_eq, Hstored. reflexivity. }
  split; [exact Hstored|]. split; [exact Hret|]. split; [reflexivity|].
  intros H.
  destruct (H mislabelled_heap sample_Library "1") as [Hpresent _].
  destruct Hpresent as (t & Ht & Hid); [rewrite Hstored; eauto|].
  rewrite Hret in Ht. injection Ht as <-. vm_compute in Hid. discriminate.
Qed.

(** C2 (amended): for every library and every identifier [k], if [k] is
    present in the [Tracks] mapping then [Track(k)] succeeds and returns
    the track stored under [k], whose [TrackID] equals [k] whenever the
    mapping is keyed by the identifiers of its tracks; if [k] is absent
    then [Track(k)] fails with the error "no track with id: k". *)
Theorem Track_returns_stored_track (h : heap) (l : Library) (k : string) :
  let m := map_contents h (Tracks l) in
  (∀ t, m !! k = Some t →
        Library_Track l k h = (t, None)
        ∧ (keyed_by_TrackID m → Itoa (TrackID t) = k))
  ∧ (m !! k = None →
     ∃ e, (Library_Track l k h).2 = Some e ∧ e = Errorf "no track with id: " k).
Proof.
  intros m. rewrite Library_Track_eq. fold m. split.
  - intros t Ht. rewrite Ht. split; [reflexivity|]. intros Hkeys. exact (Hkeys k t Ht).
  - intros Hnone. rewrite Hnone. eauto.
Qed.

Lemma Track_returns_stored_track_witness :
  let t := sample_Track 7 "Rock &amp; Roll" in
  map_contents sample_heap (Tracks sample_Library) !! "7" = Some t
  ∧ Library_Track sample_Library "7" sample_heap = (t, None)
  ∧ Itoa (TrackID t) = "7"
  ∧ map_contents sample_heap (Tracks sample_Library) !! "8" = None
  ∧ ∃ e, (Library_Track sample_Library "8" sample_heap).2 = Some e
         ∧ e = Errorf "no track with id: " "8".
Proof.
  intros t.
  assert (H7 : map_contents sample_heap (Tracks sample_Library) !! "7" = Some t)
    by (vm_compute; reflexivity).
  assert (H8 : map_contents sample_heap (Tracks sample_Library) !! "8" = None)
    by (vm_compute; reflexivity).
  pose proof (Track_returns_stored_track sample_heap sample_Library "7") as [Hp _].
  pose proof (Track_returns_stored_track sample_heap sample_Library "8") as [_ Ha].
  destruct (Hp t H7) as [Hret Hid].
  exact (conj H7 (conj Hret (conj (Hid sample_keyed_by_TrackID)
           (conj H8 (Ha H8))))).
Defined.

(** C9: for every library and every identifier [k] absent from its
    [Tracks] mapping (a nil mapping has no identifiers at all),
    [Track(k)] returns the zero-value [Track], every field at its default
    value, together with the error "no track with id: k". *)
Theorem Track_absent_returns_zero_Track (h : heap) (l : Library) (k : string) :
  map_contents h (Tracks l) !! k = None →
  Library_Track l k h = (zero_Track, Some (Errorf "no track with id: " k)).
Proof. intros Hnone. rewrite Library_Track_eq, Hnone. reflexivity. Qed.

Lemma Track_absent_returns_zero_Track_witness :
  map_contents sample_heap (Tracks sample_Library) !! "8" = None
  ∧ Library_Track sample_Library "8" sample_heap
    = (zero_Track, Some (errorString "no track with id: 8"))
  ∧ Library_Track zero_Library "7" sample_heap
    = (zero_Track, Some (errorString "no track with id: 7")).
Proof.
  split; [vm_compute; reflexivity|]. split.
  - apply (Track_absent_returns_zero_Track sample_heap sample_Library "8").
    vm_compute. reflexivity.
  - apply (Track_absent_returns_zero_Track sample_heap zero_Library "7").
    reflexivity.
Defined.

(** ** C5, C10, C6: all tracks *)

(** C5: for every library, [AllTracks()] returns a slice whose length is
    the number of entries of the [Tracks] mapping and whose elements are
    the values of that mapping, each as often as the mapping holds it, in
    the order of the iteration. *)
Theorem AllTracks_holds_the_values
  (mapiter : gmap string Track → list (string * Track))
  (mapiter_perm : ∀ m, mapiter m ≡ₚ map_to_list m)
  (l : Library) (h : heap) :
  let r := Library_AllTracks mapiter l h in
  len r.1 = map_len h (Tracks l)
  ∧ length (slice_elems r.2 r.1) = map_len h (Tracks l)
  ∧ slice_elems r.2 r.1 ≡ₚ (map_to_list (map_contents h (Tracks l))).*2.
Proof.
  intros r.
  pose proof (Library_AllTracks_elems mapiter mapiter_perm l h) as Helems.
  pose proof (Library_AllTracks_len mapiter mapiter_perm l h) as [Hlen _].
  fold r in Helems, Hlen.
  destruct r as [s h']. cbn [fst snd] in *.
  rewrite Helems. split; [exact Hlen|]. split.
  - rewrite length_fmap. apply mapiter_length, mapiter_perm.
  - rewrite mapiter_perm. reflexivity.
Qed.

Lemma AllTracks_holds_the_values_witness :
  let r := Library_AllTracks map_to_list sample_Library sample_heap in
  (∀ m : gmap string Track, map_to_list m ≡ₚ map_to_list m)
  ∧ len r.1 = 1%nat
  ∧ length (slice_elems r.2 r.1) = map_len sample_heap (Tracks sample_Library)
  ∧ slice_elems r.2 r.1
    ≡ₚ (map_to_list (map_contents sample_heap (Tracks sample_Library))).*2.
Proof.
  intros r.
  assert (Hperm : ∀ m : gmap string Track, map_to_list m ≡ₚ map_to_list m)
    by reflexivity.
  destruct (AllTracks_holds_the_values map_to_list Hperm sample_Library sample_heap)
    as (Hlen & Hlength & Hvalues).
  split; [exact Hperm|]. split; [|split].
  - fold r in Hlen. rewrite Hlen. vm_compute. reflexivity.
  - exact Hlength.
  - exact Hvalues.
Defined.

(** C10: for every library whose [Tracks] mapping is nil or empty,
    [AllTracks()] returns a slice that is not nil, has length zero and
    holds no element. *)
Theorem AllTracks_of_no_tracks
  (mapiter : gmap string Track → list (string * Track))
  (mapiter_perm : ∀ m, mapiter m ≡ₚ map_to_list m)
  (l : Library) (h : heap) :
  Tracks l = None ∨ map_contents h (Tracks l) = ∅ →
  let r := Library_AllTracks mapiter l h in
  ptr r.1 ≠ None ∧ len r.1 = 0%nat ∧ slice_elems r.2 r.1 = [].
Proof.
  intros Hempty r.
  assert (Hm : map_contents h (Tracks l) = ∅).
  { destruct Hempty as [-> | Hm]; [reflexivity | exact Hm]. }
  pose proof (Library_AllTracks_elems mapiter mapiter_perm l h) as Helems.
  pose proof (Library_AllTracks_len mapiter mapiter_perm l h) as [Hlen _].
  pose proof (Library_AllTracks_ptr mapiter mapiter_perm l h) as Hptr.
  fold r in Helems, Hlen, Hptr.
  destruct r as [s h']. cbn [fst snd] in *.
  rewrite Helems, Hlen, Hm. split; [exact Hptr|]. split.
  - apply map_size_empty.
  - assert (mapiter ∅ = []) as ->; [|reflexivity].
    apply Permutation_nil_r. rewrite mapiter_perm, map_to_list_empty. reflexivity.
Qed.

Lemma AllTracks_of_no_tracks_witness :
  let r := Library_AllTracks map_to_list zero_Library sample_heap in
  Tracks zero_Library = None
  ∧ ptr r.1 ≠ None ∧ len r.1 = 0%nat ∧ slice_elems r.2 r.1 = [].
Proof.
  intros r. split; [reflexivity|].
  apply (AllTracks_of_no_tracks map_to_list); [reflexivity|].
  left. reflexivity.
Defined.

(** C6: for every library, the slice [AllTracks()] returns is a copy:
    building it leaves the [Tracks] mapping as it was, and so does every
    sequence of assignments to elements of the returned slice, which
    change no object that existed before the call. *)
Theorem AllTracks_is_a_copy
  (mapiter : gmap string Track → list (string * Track))
  (mapiter_perm : ∀ m, mapiter m ≡ₚ map_to_list m)
  (l : Library) (h : heap) :
  valid_library h l →
  let r := Library_AllTracks mapiter l h in
  map_contents r.2 (Tracks l) = map_contents h (Tracks l)
  ∧ ∀ (ws : list (nat * Track)) (h' : heap),
      slice_set_all r.1 ws r.2 = Ret h' →
      map_contents h' (Tracks l) = map_contents h (Tracks l)
      ∧ ∀ q, is_Some (h !! q) → h' !! q = h !! q.
Proof.
  intros Hvalid r. unfold r. split.
  - apply map_contents_agree. intros q Hq.
    apply (Library_AllTracks_frame mapiter mapiter_perm), Hvalid, Hq.
  - intros ws h' Hset.
    assert (Hframe : ∀ q, is_Some (h !! q) → h' !! q = h !! q).
    { intros q Hq.
      exact (Library_AllTracks_writes_frame mapiter mapiter_perm l h h' ws q Hset Hq). }
    split; [|exact Hframe].
    apply map_contents_agree. intros q Hq. apply Hframe, Hvalid, Hq.
Qed.

Lemma AllTracks_is_a_copy_witness :
  let r := Library_AllTracks map_to_list sample_Library sample_heap in
  let ws := [(0%nat, sample_Track 9 "Replaced")] in
  valid_library sample_heap sample_Library
  ∧ ∃ h', slice_set_all r.1 ws r.2 = Ret h'
          ∧ slice_elems h' r.1 = [sample_Track 9 "Replaced"]
          ∧ map_contents h' (Tracks sample_Library)
            = map_contents sample_heap (Tracks sample_Library).
Proof.
  intros r ws.
  assert (Hvalid : valid_library sample_heap sample_Library).
  { intros p [= <-]. vm_compute. eauto. }
  split; [exact Hvalid|].
  destruct (slice_set_all r.1 ws r.2) as [h'|v] eqn:Hset;
    [|vm_compute in Hset; discriminate].
  exists h'. split; [reflexivity|]. split.
  - vm_compute in Hset. injection Hset as <-. vm_compute. reflexivity.
  - destruct (AllTracks_is_a_copy map_to_list
                (λ m, reflexivity (map_to_list m)) sample_Library sample_heap Hvalid)
      as [_ Hwrites].
    exact (proj1 (Hwrites ws h' Hset)).
Defined.

(** Nor is the slice a view of the mapping: an assignment to the
    library's map after the call leaves the elements of the slice as
    they were. *)
Lemma AllTracks_is_not_a_view
  (mapiter : gmap string Track → list (string * Track))
  (mapiter_perm : ∀ m, mapiter m ≡ₚ map_to_list m)
  (l : Library) (h h' : heap) (k : string) (t : Track) :
  valid_library h l →
  let r := Library_AllTracks mapiter l h in
  mapassign (Tracks l) k t r.2 = Ret h' →
  slice_elems h' r.1 = slice_elems r.2 r.1.
Proof.
  intros Hvalid r. unfold r.
  rewrite (Library_AllTracks_eq mapiter mapiter_perm).
  destruct (decide (size (map_contents h (Tracks l)) = 0)%nat); cbn [fst snd].
  - intros _. reflexivity.
  - unfold mapassign. destruct (Tracks l) as [q|] eqn:Hq; [|discriminate].
    intros [= <-]. unfold slice_elems, array_at. cbn [ptr len].
    rewrite lookup_insert_ne; [reflexivity|].
    intros Hqp. destruct (Hvalid _ Hq) as [o Ho].
    rewrite Hqp, newobject_not_allocated in Ho. discriminate.
Qed.

(** ** Reflection over [Track] *)

Lemma FieldByName_from_Some (fields : list reflect.StructField) (name : string) :
  ∀ (k i : nat) (f : reflect.StructField),
    reflect.FieldByName_from k fields name = Some (i, f) →
    (k ≤ i)%nat ∧ fields !! (i - k)%nat = Some f ∧ reflect.Name f = name.
Proof.
  induction fields as [|g fields IH]; intros k i f Hfind; simpl in Hfind.
  - discriminate.
  - destruct (decide (reflect.Name g = name)) as [Hname|Hname].
    + injection Hfind as <- <-. rewrite Nat.sub_diag. auto.
    + destruct (IH _ _ _ Hfind) as (Hle & Hlook & Hn).
      split; [lia|]. split; [|exact Hn].
      replace (i - k)%nat with (S (i - S k)) by lia. exact Hlook.
Qed.

Lemma FieldByName_Some (fields : list reflect.StructField) (name : string)
  (i : nat) (f : reflect.StructField) :
  reflect.FieldByName fields name = Some (i, f) →
  fields !! i = Some f ∧ reflect.Name f = name.
Proof.
  intros Hfind. apply FieldByName_from_Some in Hfind as (_ & Hlook & Hname).
  rewrite Nat.sub_0_r in Hlook. auto.
Qed.

(** Each field of a [Track] value has the kind its type declares. *)
Lemma Track_values_kinds (t : Track) :
  Value_Kind <$> Track_values t = reflect.Type_ <$> Track_type.
Proof. reflexivity. Qed.

Lemma Track_field_value (t : Track) (name : string) (i : nat) (ft : reflect.StructField) :
  reflect.FieldByName Track_type name = Some (i, ft) →
  ∃ v, Track_values t !! i = Some v ∧ Value_Kind v = reflect.Type_ ft.
Proof.
  intros [Hlook _]%FieldByName_Some.
  assert (Hk : (Value_Kind <$> Track_values t) !! i = Some (reflect.Type_ ft)).
  { rewrite Track_values_kinds, list_lookup_fmap, Hlook. reflexivity. }
  rewrite list_lookup_fmap in Hk.
  destruct (Track_values t !! i) as [v|]; [|discriminate].
  exists v. split; [reflexivity|]. injection Hk as ->. reflexivity.
Qed.

(** The three accessors have one shape; so have the proofs of their
    equations. *)
Ltac accessor_cases K :=
  unfold field_kind, field_value, Value_FieldByName, Value_Field;
  destruct (reflect.FieldByName Track_type _) as [[?i ?ft]|]; [|reflexivity];
  destruct (decide (reflect.Type_ ft ≠ K)) as [Hk|Hk];
  [ destruct (reflect.Type_ ft); try reflexivity; congruence
  | apply dec_stable in Hk; rewrite Hk;
    destruct (Track_values _ !! i); reflexivity ].

(** What the three accessors compute, by the kind of the named field. *)
Lemma Track_GetString_eq (U : string → string) (t : Track) (name : string) :
  Track_GetString U t name =
    match field_kind name with
    | None => Panic "invalid field"
    | Some reflect.String =>
        match field_value t name with
        | Some v => Ret (U (Value_String v))
        | None => Panic "reflect: Field index out of range"
        end
    | Some _ => Panic "field is not a string"
    end.
Proof.
  unfold Track_GetString. accessor_cases reflect.String.
Qed.

Lemma Track_GetInt_eq (t : Track) (name : string) :
  Track_GetInt t name =
    match field_kind name with
    | None => Panic "invalid field"
    | Some reflect.Int =>
        match field_value t name with
        | Some v => Value_Int v
        | None => Panic "reflect: Field index out of range"
        end
    | Some _ => Panic "field is not an int"
    end.
Proof.
  unfold Track_GetInt. accessor_cases reflect.Int.
Qed.

Lemma Track_GetBool_eq (t : Track) (name : string) :
  Track_GetBool t name =
    match field_kind name with
    | None => Panic "invalid field"
    | Some reflect.Bool =>
        match field_value t name with
        | Some v => Value_Bool v
        | None => Panic "reflect: Field index out of range"
        end
    | Some _ => Panic "field is not a bool"
    end.
Proof.
  unfold Track_GetBool. accessor_cases reflect.Bool.
Qed.

(** A field of a declared kind holds a value of that kind. *)
Lemma field_value_of_kind (t : Track) (name : string) (k : reflect.Kind) :
  field_kind name = Some k →
  ∃ v, field_value t name = Some v ∧ Value_Kind v = k.
Proof.
  unfold field_kind, field_value.
  destruct (reflect.FieldByName Track_type name) as [[i ft]|] eqn:Hfind; [|discriminate].
  intros [= <-]. eapply Track_field_value, Hfind.
Qed.

(** A name is a field of [Track] of kind [k] exactly when the lookup by
    name finds a field of that kind: field names are unique. *)
Lemma Track_type_lookups :
  Forall (λ f, field_kind (reflect.Name f) = Some (reflect.Type_ f)) Track_type.
Proof. repeat apply Forall_cons_2; try apply Forall_nil_2; reflexivity. Qed.

Lemma field_kind_Some (name : string) (k : reflect.Kind) :
  field_kind name = Some k ↔ Track_has_field name k.
Proof.
  split.
  - unfold field_kind.
    destruct (reflect.FieldByName Track_type name) as [[i ft]|] eqn:Hfind; [|discriminate].
    intros [= <-]. apply FieldByName_Some in Hfind as [Hlook <-].
    exists (reflect.Tag ft). destruct ft. eapply list_elem_of_lookup_2, Hlook.
  - intros [tag Hin].
    exact (proj1 (Forall_forall _ _) Track_type_lookups _ Hin).
Qed.

Lemma field_kind_None (name : string) :
  field_kind name = None ↔ ∀ k, ¬ Track_has_field name k.
Proof.
  split.
  - intros Hnone k Hk%field_kind_Some. congruence.
  - intros Hno. destruct (field_kind name) as [k|] eqn:Hk; [|reflexivity].
    destruct (Hno k). apply field_kind_Some, Hk.
Qed.

(** The tables of fields by type agree with reflection: every listed name
    is a field of the kind, holding the value of the listed projection,
    and every field of the kind is listed. *)
Lemma Track_string_fields_values :
  Forall (λ '(name, proj), ∀ t, field_value t name = Some (VString (proj t)))
    Track_string_fields.
Proof. repeat apply Forall_cons_2; try apply Forall_nil_2; reflexivity. Qed.

Lemma Track_int_fields_values :
  Forall (λ '(name, proj), ∀ t, field_value t name = Some (VInt (proj t)))
    Track_int_fields.
Proof. repeat apply Forall_cons_2; try apply Forall_nil_2; reflexivity. Qed.

Lemma Track_bool_fields_values :
  Forall (λ '(name, proj), ∀ t, field_value t name = Some (VBool (proj t)))
    Track_bool_fields.
Proof. repeat apply Forall_cons_2; try apply Forall_nil_2; reflexivity. Qed.

Lemma Track_fields_listed :
  Forall (λ f,
      (reflect.Type_ f = reflect.String → reflect.Name f ∈ Track_string_fields.*1)
      ∧ (reflect.Type_ f = reflect.Int → reflect.Name f ∈ Track_int_fields.*1)
      ∧ (reflect.Type_ f = reflect.Bool → reflect.Name f ∈ Track_bool_fields.*1))
    Track_type.
Proof.
  repeat apply Forall_cons_2; try apply Forall_nil_2;
    (split; [|split]); cbn [reflect.Type_ reflect.Name];
    first [ discriminate
          | intros _; apply (bool_decide_eq_true_1 (_ ∈ _)); vm_compute; reflexivity ].
Qed.

(** The projection a field of a given kind stands for. *)
Lemma Track_field_projection {A : Type} (V : A → Value) (K : reflect.Kind)
  (table : list (string * (Track → A))) (name : string) :
  Forall (λ '(name, proj), ∀ t, field_value t name = Some (V (proj t))) table →
  (∀ f, f ∈ Track_type → reflect.Type_ f = K → reflect.Name f ∈ table.*1) →
  Track_has_field name K →
  ∃ proj, (name, proj) ∈ table ∧ ∀ t, field_value t name = Some (V (proj t)).
Proof.
  intros Hvalues Hlisted [tag Hin].
  apply Hlisted in Hin; [|reflexivity]. cbn in Hin.
  apply list_elem_of_fmap in Hin as ([name' proj] & -> & Hin).
  exists proj. split; [exact Hin|].
  exact (proj1 (Forall_forall _ _) Hvalues _ Hin).
Qed.

Lemma Track_string_field (name : string) :
  Track_has_field name reflect.String →
  ∃ proj, (name, proj) ∈ Track_string_fields
          ∧ ∀ t, field_value t name = Some (VString (proj t)).
Proof.
  apply Track_field_projection; [apply Track_string_fields_values|].
  intros f Hf. apply (proj1 (Forall_forall _ _) Track_fields_listed _ Hf).
Qed.

Lemma Track_int_field (name : string) :
  Track_has_field name reflect.Int →
  ∃ proj, (name, proj) ∈ Track_int_fields
          ∧ ∀ t, field_value t name = Some (VInt (proj t)).
Proof.
  apply Track_field_projection; [apply Track_int_fields_values|].
  intros f Hf. apply (proj1 (Forall_forall _ _) Track_fields_listed _ Hf).
Qed.

Lemma Track_bool_field (name : string) :
  Track_has_field name reflect.Bool →
  ∃ proj, (name, proj) ∈ Track_bool_fields
          ∧ ∀ t, field_value t name = Some (VBool (proj t)).
Proof.
  apply Track_field_projection; [apply Track_bool_fields_values|].
  intros f Hf. apply (proj1 (Forall_forall _ _) Track_fields_listed _ Hf).
Qed.

(** ** Unescaping *)

Section Unescape.

Variable entity : string → Z.
Variable entity2 : string → Z * Z.

Lemma unescape_loop_other (fuel : nat) (c : ascii) (s : list ascii) :
  c ≠ "&"%char →
  html.unescape_loop entity entity2 (S fuel) (c :: s)
  = c :: html.unescape_loop entity entity2 fuel s.
Proof. intros Hc. simpl. rewrite decide_False by exact Hc. reflexivity. Qed.

Lemma unescape_loop_amp (fuel : nat) (s out : list ascii) (n : nat) :
  html.unescapeEntity entity entity2 ("&"%char :: s) = (out, n) →
  html.unescape_loop entity entity2 (S fuel) ("&"%char :: s)
  = out ++ html.unescape_loop entity entity2 fuel (drop n ("&"%char :: s)).
Proof.
  intros He. cbn [html.unescape_loop].
  rewrite decide_True by reflexivity. rewrite He. reflexivity.
Qed.

(** Text without an ampersand is returned as it is. *)
Lemma unescape_loop_no_amp (fuel : nat) :
  ∀ s : list ascii, "&"%char ∉ s → html.unescape_loop entity entity2 fuel s = s.
Proof.
  induction fuel as [|fuel IH]; intros s Hs; [reflexivity|].
  destruct s as [|c s]; [reflexivity|].
  apply not_elem_of_cons in Hs as [Hc Hs].
  rewrite unescape_loop_other by congruence. rewrite IH by exact Hs. reflexivity.
Qed.

(** A named reference that the table knows in full is replaced by the
    encoding of its code point. *)
Lemma unescapeEntity_named (s : list ascii) (i : nat) (x : Z) :
  (1 < length s)%nat →
  s !! 1%nat ≠ Some "#"%char →
  html.nameEnd (drop 1 s) 1 = i →
  (1 < i)%nat →
  entity (string_of_list_ascii (take (i - 1) (drop 1 s))) = x →
  x ≠ 0 →
  html.unescapeEntity entity entity2 s = (html.EncodeRune x, i).
Proof.
  intros Hlen Hsharp Hend Hi Hx Hx0. unfold html.unescapeEntity.
  rewrite decide_False by lia.
  rewrite decide_False by exact Hsharp.
  rewrite Hend.
  rewrite decide_False.
  - cbn [andb]. rewrite Hx. rewrite decide_True by exact Hx0. reflexivity.
  - rewrite length_take, length_drop. lia.
Qed.

Lemma nameEnd_ge (s : list ascii) : ∀ i : nat, (i ≤ html.nameEnd s i)%nat.
Proof.
  induction s as [|c s IH]; intros i; simpl; [lia|].
  destruct (html.isAlnum c); [specialize (IH (S i)); lia|].
  destruct (decide (c = ";"%char)); lia.
Qed.

Lemma prefixEntity_consumes (name : list ascii) (j : nat) (x : Z) (n : nat) :
  html.prefixEntity entity name j = Some (x, n) → (1 ≤ n)%nat.
Proof.
  induction j as [|j IH]; simpl; [discriminate|].
  destruct j as [|j]; [discriminate|].
  destruct (decide (entity _ ≠ 0)); [intros [= _ <-]; lia | exact IH].
Qed.

(** Every reference consumes the ampersand at least. *)
Lemma unescapeEntity_consumes (s : list ascii) :
  (1 ≤ (html.unescapeEntity entity entity2 s).2)%nat.
Proof.
  unfold html.unescapeEntity.
  pose proof (nameEnd_ge (drop 1 s) 1) as Hend.
  repeat case_decide; cbn [snd andb negb]; try lia.
  all: try match goal with
       | |- context [html.digits ?hex ?d ?x ?i] =>
           destruct (html.digits hex d x i) as [? ?]; case_decide; cbn [snd]; lia
       end.
  all: destruct (html.prefixEntity _ _ _) as [[x n]|] eqn:Hp; cbn [snd]; [|lia].
  all: eapply prefixEntity_consumes, Hp.
Qed.

(** Any fuel of the length of the text or more gives the same result:
    the loop ends before the fuel does. *)
Lemma unescape_loop_fuel (fuel : nat) :
  ∀ (s : list ascii) (fuel' : nat),
    (length s ≤ fuel)%nat → (length s ≤ fuel')%nat →
    html.unescape_loop entity entity2 fuel s
    = html.unescape_loop entity entity2 fuel' s.
Proof.
  induction fuel as [|fuel IH]; intros s fuel' Hf Hf'.
  - destruct s; [|simpl in Hf; lia]. destruct fuel'; reflexivity.
  - destruct s as [|c s]; [destruct fuel'; reflexivity|].
    destruct fuel' as [|fuel']; [simpl in Hf'; lia|].
    simpl in Hf, Hf'. cbn [html.unescape_loop].
    destruct (decide (c = "&"%char)) as [_|_].
    + pose proof (unescapeEntity_consumes (c :: s)) as Hn.
      destruct (html.unescapeEntity entity entity2 (c :: s)) as [out n].
      cbn [snd] in Hn. f_equal.
      apply IH; rewrite length_drop; simpl; lia.
    + f_equal. apply IH; lia.
Qed.

End Unescape.

(** ** The accessors on the fields of their kind, and elsewhere *)

Lemma Track_GetString_field (U : string → string) (name : string) :
  Track_has_field name reflect.String →
  ∃ proj, (name, proj) ∈ Track_string_fields
          ∧ ∀ t, Track_GetString U t name = Ret (U (proj t)).
Proof.
  intros Hfield.
  destruct (Track_string_field name Hfield) as (proj & Hin & Hvalue).
  exists proj. split; [exact Hin|]. intros t.
  apply field_kind_Some in Hfield.
  rewrite Track_GetString_eq, Hfield, Hvalue. reflexivity.
Qed.

Lemma Track_GetInt_field (name : string) :
  Track_has_field name reflect.Int →
  ∃ proj, (name, proj) ∈ Track_int_fields
          ∧ ∀ t, Track_GetInt t name = Ret (proj t).
Proof.
  intros Hfield.
  destruct (Track_int_field name Hfield) as (proj & Hin & Hvalue).
  exists proj. split; [exact Hin|]. intros t.
  apply field_kind_Some in Hfield.
  rewrite Track_GetInt_eq, Hfield, Hvalue. reflexivity.
Qed.

Lemma Track_GetBool_field (name : string) :
  Track_has_field name reflect.Bool →
  ∃ proj, (name, proj) ∈ Track_bool_fields
          ∧ ∀ t, Track_GetBool t name = Ret (proj t).
Proof.
  intros Hfield.
  destruct (Track_bool_field name Hfield) as (proj & Hin & Hvalue).
  exists proj. split; [exact Hin|]. intros t.
  apply field_kind_Some in Hfield.
  rewrite Track_GetBool_eq, Hfield, Hvalue. reflexivity.
Qed.

(** A call that returns on the fields of kind [K] and panics on every
    other name panics exactly on the names that are no field, or a field
    of another kind. *)
Lemma panics_iff_not_a_field_of_kind {A : Type} (r : result A)
  (name : string) (K : reflect.Kind) :
  (field_kind name = Some K → ¬ panics r) →
  (field_kind name ≠ Some K → panics r) →
  panics r ↔ (∀ k, ¬ Track_has_field name k)
             ∨ ∃ k, Track_has_field name k ∧ k ≠ K.
Proof.
  intros Hret Hpanic. split.
  - intros Hp. destruct (field_kind name) as [k|] eqn:Hkind.
    + right. exists k. split; [apply field_kind_Some, Hkind|].
      intros ->. exact (Hret eq_refl Hp).
    + left. apply field_kind_None, Hkind.
  - intros [Hno | (k & Hk & Hne)]; apply Hpanic.
    + apply field_kind_None in Hno. congruence.
    + apply field_kind_Some in Hk. congruence.
Qed.

(** ** Unescaping decodes character references *)

Lemma int32_small (z : Z) : - 2 ^ 31 ≤ z < 2 ^ 31 → html.int32 z = z.
Proof. intros Hz. unfold html.int32. rewrite Z.mod_small by lia. lia. Qed.

Lemma decimal_digit_Some (c : ascii) (d : Z) :
  html.decimal_digit c = Some d →
  html.between "0" "9" c = true ∧ d = html.code c - html.code "0" ∧ 0 ≤ d ≤ 9.
Proof.
  unfold html.decimal_digit.
  destruct (html.between "0" "9" c) eqn:Hb; [|discriminate].
  intros [= <-]. split; [reflexivity|]. split; [reflexivity|].
  unfold html.between in Hb. apply andb_true_iff in Hb as [H1 H2].
  apply Z.leb_le in H1, H2. change (html.code "0") with 48 in *.
  change (html.code "9") with 57 in *. lia.
Qed.

Lemma hex_digit_Some (c : ascii) (d : Z) :
  html.hex_digit c = Some d → 0 ≤ d ≤ 15.
Proof.
  unfold html.hex_digit, html.between.
  change (html.code "0") with 48. change (html.code "9") with 57.
  change (html.code "a") with 97. change (html.code "f") with 102.
  change (html.code "A") with 65. change (html.code "F") with 70.
  repeat case_match; intros [= <-];
    repeat match goal with
      | H : _ && _ = true |- _ => apply andb_true_iff in H as [? ?]
      | H : (_ <=? _) = true |- _ => apply Z.leb_le in H
      end; lia.
Qed.

Lemma number_ge (base : Z) (digit : ascii → option Z) (ds : list ascii) :
  1 ≤ base → (∀ c d, digit c = Some d → 0 ≤ d) →
  ∀ acc v, 0 ≤ acc → html.number base digit ds acc = Some v → acc ≤ v.
Proof.
  intros Hbase Hdigit. induction ds as [|c ds IH]; intros acc v Hacc; simpl.
  - intros [= <-]. lia.
  - destruct (digit c) as [d|] eqn:Hd; [|discriminate].
    intros Hv. pose proof (Hdigit c d Hd). apply IH in Hv; nia.
Qed.

(** The digits of a decimal reference, up to and with its semicolon. *)
Lemma digits_decimal (ds rest : list ascii) :
  ∀ (x : Z) (i : nat) (v : Z),
    0 ≤ x → html.number 10 html.decimal_digit ds x = Some v → v < 2 ^ 31 →
    html.digits false (ds ++ ";"%char :: rest) x i = (v, (i + length ds + 1)%nat).
Proof.
  induction ds as [|c ds IH]; intros x i v Hx Hv Hmax; simpl in *.
  - injection Hv as <-. f_equal. lia.
  - destruct (html.decimal_digit c) as [d|] eqn:Hd; [|discriminate].
    apply decimal_digit_Some in Hd as (-> & -> & Hd).
    assert (Hle : 10 * x + (html.code c - html.code "0") ≤ v).
    { apply (number_ge 10 html.decimal_digit ds); [lia| |lia|exact Hv].
      intros c' d' Hd'. apply decimal_digit_Some in Hd'. lia. }
    replace (10 * x + html.code c - html.code "0")
      with (10 * x + (html.code c - html.code "0")) by lia.
    rewrite int32_small by lia.
    rewrite (IH _ (S i) v); [f_equal; lia|lia|exact Hv|exact Hmax].
Qed.

(** The digits of a hexadecimal reference, up to and with its semicolon. *)
Lemma digits_hex (hs rest : list ascii) :
  ∀ (x : Z) (i : nat) (v : Z),
    0 ≤ x → html.number 16 html.hex_digit hs x = Some v → v < 2 ^ 31 →
    html.digits true (hs ++ ";"%char :: rest) x i = (v, (i + length hs + 1)%nat).
Proof.
  induction hs as [|c hs IH]; intros x i v Hx Hv Hmax; simpl in *.
  - injection Hv as <-. f_equal. lia.
  - destruct (html.hex_digit c) as [d|] eqn:Hd; [|discriminate].
    pose proof (hex_digit_Some c d Hd) as Hd15.
    assert (Hle : 16 * x + d ≤ v).
    { apply (number_ge 16 html.hex_digit hs); [lia| |lia|exact Hv].
      intros c' d' Hd'. apply hex_digit_Some in Hd'. lia. }
    unfold html.hex_digit in Hd.
    destruct (html.between "0" "9" c); simpl;
      [|destruct (html.between "a" "f" c); simpl;
        [|destruct (html.between "A" "F" c); simpl; [|discriminate]]];
      injection Hd as <-;
      (match goal with
       | |- html.digits true _ (html.int32 ?z) _ = _ =>
           rewrite (int32_small z) by lia
       end);
      (rewrite (IH _ (S i) v);
       [f_equal; lia | lia | rewrite <- Hv; f_equal; lia | exact Hmax]).
Qed.

Lemma nameEnd_alnum (name rest : list ascii) :
  ∀ i : nat,
    forallb html.isAlnum name = true →
    html.nameEnd (name ++ ";"%char :: rest) i = (i + length name + 1)%nat.
Proof.
  induction name as [|c name IH]; intros i Hname; simpl in *.
  - lia.
  - apply andb_true_iff in Hname as [-> Hname]. rewrite IH by exact Hname. lia.
Qed.

Lemma isAlnum_not_sharp (c : ascii) : html.isAlnum c = true → c ≠ "#"%char.
Proof. intros Hc ->. vm_compute in Hc. discriminate. Qed.

Lemma decimal_digit_not_x (c : ascii) (d : Z) :
  html.decimal_digit c = Some d → c ≠ "x"%char ∧ c ≠ "X"%char.
Proof.
  intros Hd. split; intros ->; vm_compute in Hd; discriminate.
Qed.

Lemma take_name (name rest : list ascii) :
  take (length name + 1) (name ++ ";"%char :: rest) = name ++ [";"%char].
Proof.
  rewrite (cons_middle ";"%char), app_assoc.
  apply take_app_length'. rewrite length_app. reflexivity.
Qed.

Lemma drop_name (name rest : list ascii) :
  drop (length name + 1) (name ++ ";"%char :: rest) = rest.
Proof.
  rewrite (cons_middle ";"%char), app_assoc.
  apply drop_app_length'. rewrite length_app. reflexivity.
Qed.

Lemma length_list_ascii_of_string (s : string) :
  length (list_ascii_of_string s) = String.length s.
Proof. induction s as [|c s IH]; simpl; [reflexivity|]. rewrite IH. reflexivity. Qed.

Section Decoding.

Variable entity : string → Z.
Variable entity2 : string → Z * Z.

(** A named reference that only the table of pairs knows is replaced by
    the encodings of its two code points. *)
Lemma unescapeEntity_named2 (s : list ascii) (i : nat) (x y : Z) :
  (1 < length s)%nat →
  s !! 1%nat ≠ Some "#"%char →
  html.nameEnd (drop 1 s) 1 = i →
  (1 < i)%nat →
  entity (string_of_list_ascii (take (i - 1) (drop 1 s))) = 0 →
  entity2 (string_of_list_ascii (take (i - 1) (drop 1 s))) = (x, y) →
  x ≠ 0 →
  html.unescapeEntity entity entity2 s
  = (html.EncodeRune x ++ html.EncodeRune y, i).
Proof.
  intros Hlen Hsharp Hend Hi Hzero Hxy Hx. unfold html.unescapeEntity.
  rewrite decide_False by lia.
  rewrite decide_False by exact Hsharp.
  rewrite Hend.
  rewrite decide_False.
  - cbn [andb]. rewrite Hzero. rewrite decide_False by (intros Hne; apply Hne; reflexivity).
    rewrite Hxy. cbn [fst snd]. rewrite decide_True by exact Hx. reflexivity.
  - rewrite length_take, length_drop. lia.
Qed.

Lemma unescapeEntity_reference (name : list ascii) (x : Z) (rest : list ascii) :
  name ≠ [] →
  forallb html.isAlnum name = true →
  entity (string_of_list_ascii (name ++ [";"%char])) = x →
  x ≠ 0 →
  html.unescapeEntity entity entity2 ("&"%char :: name ++ ";"%char :: rest)
  = (html.EncodeRune x, (length name + 2)%nat).
Proof.
  intros Hne Hname Hx Hx0. apply (unescapeEntity_named entity entity2).
  - simpl. rewrite length_app. simpl. lia.
  - destruct name as [|c name]; [congruence|]. simpl in *.
    apply andb_true_iff in Hname as [Hc _]. intros [= ->].
    apply isAlnum_not_sharp in Hc. congruence.
  - simpl. rewrite drop_0, nameEnd_alnum by exact Hname. lia.
  - lia.
  - replace (length name + 2 - 1)%nat with (length name + 1)%nat by lia.
    simpl drop. rewrite drop_0, take_name. exact Hx.
  - exact Hx0.
Qed.

Lemma unescapeEntity_reference2 (name : list ascii) (x y : Z) (rest : list ascii) :
  name ≠ [] →
  forallb html.isAlnum name = true →
  entity (string_of_list_ascii (name ++ [";"%char])) = 0 →
  entity2 (string_of_list_ascii (name ++ [";"%char])) = (x, y) →
  x ≠ 0 →
  html.unescapeEntity entity entity2 ("&"%char :: name ++ ";"%char :: rest)
  = (html.EncodeRune x ++ html.EncodeRune y, (length name + 2)%nat).
Proof.
  intros Hne Hname Hzero Hxy Hx0. apply unescapeEntity_named2.
  - simpl. rewrite length_app. simpl. lia.
  - destruct name as [|c name]; [congruence|]. simpl in *.
    apply andb_true_iff in Hname as [Hc _]. intros [= ->].
    apply isAlnum_not_sharp in Hc. congruence.
  - simpl. rewrite drop_0, nameEnd_alnum by exact Hname. lia.
  - lia.
  - replace (length name + 2 - 1)%nat with (length name + 1)%nat by lia.
    simpl drop. rewrite drop_0, take_name. exact Hzero.
  - replace (length name + 2 - 1)%nat with (length name + 1)%nat by lia.
    simpl drop. rewrite drop_0, take_name. exact Hxy.
  - exact Hx0.
Qed.

(** A decimal reference is replaced by the encoding of its code point. *)
Lemma unescapeEntity_decimal (ds : list ascii) (v : Z) (rest : list ascii) :
  ds ≠ [] →
  html.number 10 html.decimal_digit ds 0 = Some v →
  v < 2 ^ 31 →
  html.unescapeEntity entity entity2
    ("&"%char :: "#"%char :: ds ++ ";"%char :: rest)
  = (html.EncodeRune (html.charref v), (length ds + 3)%nat).
Proof.
  intros Hne Hv Hmax. destruct ds as [|c ds]; [congruence|]. clear Hne.
  assert (Hc : c ≠ "x"%char ∧ c ≠ "X"%char).
  { simpl in Hv. destruct (html.decimal_digit c) as [d|] eqn:Hd; [|discriminate].
    eapply decimal_digit_not_x, Hd. }
  unfold html.unescapeEntity.
  rewrite decide_False by (simpl; lia).
  rewrite decide_True by reflexivity.
  rewrite decide_False by (simpl; rewrite length_app; simpl; lia).
  rewrite bool_decide_eq_false_2
    by (simpl; intros [[= ->]|[= ->]]; destruct Hc; congruence).
  simpl drop.
  change (c :: ds ++ ";"%char :: rest) with ((c :: ds) ++ ";"%char :: rest).
  rewrite (digits_decimal (c :: ds) rest 0 2 v) by (lia || assumption).
  rewrite decide_False by (simpl; lia).
  f_equal. simpl. lia.
Qed.

(** A hexadecimal reference is replaced by the encoding of its code
    point. *)
Lemma unescapeEntity_hex (X : ascii) (hs : list ascii) (v : Z) (rest : list ascii) :
  X = "x"%char ∨ X = "X"%char →
  hs ≠ [] →
  html.number 16 html.hex_digit hs 0 = Some v →
  v < 2 ^ 31 →
  html.unescapeEntity entity entity2
    ("&"%char :: "#"%char :: X :: hs ++ ";"%char :: rest)
  = (html.EncodeRune (html.charref v), (length hs + 4)%nat).
Proof.
  intros HX Hne Hv Hmax. destruct hs as [|c hs]; [congruence|]. clear Hne.
  unfold html.unescapeEntity.
  rewrite decide_False by (simpl; lia).
  rewrite decide_True by reflexivity.
  rewrite decide_False by (simpl; rewrite length_app; simpl; lia).
  rewrite bool_decide_eq_true_2
    by (simpl; destruct HX as [-> | ->]; [left|right]; reflexivity).
  simpl drop.
  change (c :: hs ++ ";"%char :: rest) with ((c :: hs) ++ ";"%char :: rest).
  rewrite (digits_hex (c :: hs) rest 0 3 v) by (lia || assumption).
  rewrite decide_False by (simpl; lia).
  f_equal. simpl. lia.
Qed.

(** The algorithm computes what the relation describes, given fuel for
    the length of the text. *)
Lemma unescape_loop_decodes (s r : list ascii) :
  html.decodes entity entity2 s r →
  ∀ fuel : nat, (length s ≤ fuel)%nat →
    html.unescape_loop entity entity2 fuel s = r.
Proof.
  induction 1 as [ | c s r Hc _ IH
                   | name x s r Hne Hname Hx Hx0 _ IH
                   | name x y s r Hne Hname Hzero Hxy Hx0 _ IH
                   | ds v s r Hne Hv Hmax _ IH
                   | X hs v s r HX Hne Hv Hmax _ IH ];
    intros fuel Hfuel.
  - destruct fuel; reflexivity.
  - destruct fuel as [|fuel]; [simpl in Hfuel; lia|].
    rewrite unescape_loop_other by exact Hc.
    rewrite IH by (simpl in Hfuel; lia). reflexivity.
  - destruct fuel as [|fuel]; [simpl in Hfuel; lia|].
    rewrite (unescape_loop_amp _ _ _ _ _ _
               (unescapeEntity_reference name x s Hne Hname Hx Hx0)).
    replace (length name + 2)%nat with (S (length name + 1)) by lia.
    simpl drop. rewrite drop_name. rewrite IH; [reflexivity|].
    simpl in Hfuel. rewrite length_app in Hfuel. simpl in Hfuel. lia.
  - destruct fuel as [|fuel]; [simpl in Hfuel; lia|].
    rewrite (unescape_loop_amp _ _ _ _ _ _
               (unescapeEntity_reference2 name x y s Hne Hname Hzero Hxy Hx0)).
    replace (length name + 2)%nat with (S (length name + 1)) by lia.
    simpl drop. rewrite drop_name. rewrite IH; [rewrite app_assoc; reflexivity|].
    simpl in Hfuel. rewrite length_app in Hfuel. simpl in Hfuel. lia.
  - destruct fuel as [|fuel]; [simpl in Hfuel; lia|].
    rewrite (unescape_loop_amp _ _ _ _ _ _
               (unescapeEntity_decimal ds v s Hne Hv Hmax)).
    replace (length ds + 3)%nat with (S (S (length ds + 1))) by lia.
    simpl drop. rewrite drop_name. rewrite IH; [reflexivity|].
    simpl in Hfuel. rewrite length_app in Hfuel. simpl in Hfuel. lia.
  - destruct fuel as [|fuel]; [simpl in Hfuel; lia|].
    rewrite (unescape_loop_amp _ _ _ _ _ _
               (unescapeEntity_hex X hs v s HX Hne Hv Hmax)).
    replace (length hs + 4)%nat with (S (S (S (length hs + 1)))) by lia.
    simpl drop. rewrite drop_name. rewrite IH; [reflexivity|].
    simpl in Hfuel. rewrite length_app in Hfuel. simpl in Hfuel. lia.
Qed.

Lemma UnescapeString_decodes (s : string) (r : list ascii) :
  html.decodes entity entity2 (list_ascii_of_string s) r →
  html.UnescapeString entity entity2 s = string_of_list_ascii r.
Proof.
  intros Hd. unfold html.UnescapeString. f_equal.
  apply unescape_loop_decodes; [exact Hd|].
  rewrite length_list_ascii_of_string. lia.
Qed.

(** What [html.EscapeString] writes decodes to the text it was given. *)
Lemma escape_decodes (s : list ascii) :
  html.knows_amp_lt_gt entity →
  html.decodes entity entity2 (html.escape s) s.
Proof.
  intros (Hamp & Hlt & Hgt). induction s as [|c s IH]; [constructor|].
  cbn [html.escape]. repeat case_decide; subst.
  - apply (html.decodes_named entity entity2 (list_ascii_of_string "amp") 0x26 _ s);
      [discriminate | reflexivity | exact Hamp | discriminate | exact IH].
  - apply (html.decodes_decimal entity entity2 (list_ascii_of_string "39") 39 _ s);
      [discriminate | reflexivity | reflexivity | exact IH].
  - apply (html.decodes_named entity entity2 (list_ascii_of_string "lt") 0x3C _ s);
      [discriminate | reflexivity | exact Hlt | discriminate | exact IH].
  - apply (html.decodes_named entity entity2 (list_ascii_of_string "gt") 0x3E _ s);
      [discriminate | reflexivity | exact Hgt | discriminate | exact IH].
  - apply (html.decodes_decimal entity entity2 (list_ascii_of_string "34") 34 _ s);
      [discriminate | reflexivity | reflexivity | exact IH].
  - apply html.decodes_char; assumption.
Qed.

Lemma UnescapeString_EscapeString (s : string) :
  html.knows_amp_lt_gt entity →
  html.UnescapeString entity entity2 (html.EscapeString s) = s.
Proof.
  intros Hknows.
  rewrite (UnescapeString_decodes _ (list_ascii_of_string s)).
  - apply string_of_list_ascii_of_string.
  - unfold html.EscapeString. rewrite list_ascii_of_string_of_list_ascii.
    apply escape_decodes, Hknows.
Qed.

End Decoding.

(** ** UTF-8 *)

Lemma all_range_spec (P : Z → bool) (k : nat) :
  ∀ lo, html.all_range k lo P = true →
        ∀ x, lo ≤ x < lo + 2 ^ Z.of_nat k → P x = true.
Proof.
  induction k as [|k IH]; intros lo Hall x Hx.
  - cbn in Hall. change (2 ^ Z.of_nat 0) with 1 in Hx.
    replace x with lo by lia. exact Hall.
  - cbn [html.all_range] in Hall. apply andb_true_iff in Hall as [Hlow Hhigh].
    rewrite Nat2Z.inj_succ, Z.pow_succ_r in Hx by lia.
    destruct (Z.lt_ge_cases x (lo + 2 ^ Z.of_nat k)).
    + apply (IH lo Hlow). lia.
    + apply (IH _ Hhigh). lia.
Qed.

Lemma code_chr (z : Z) : 0 ≤ z < 256 → html.code (html.chr z) = z.
Proof.
  intros Hz. unfold html.code, html.chr.
  rewrite Z.mod_small by lia.
  rewrite N_ascii_embedding by lia. lia.
Qed.

(** A continuation byte carries six bits. *)
Lemma continuation_byte (v : Z) :
  0 ≤ v < 64 →
  (Z.land (html.code (html.chr (Z.lor 0x80 v))) 0xC0 =? 0x80) = true
  ∧ Z.land (html.code (html.chr (Z.lor 0x80 v))) 0x3F = v.
Proof.
  intros Hv.
  pose proof (all_range_spec
    (λ v, (Z.land (html.code (html.chr (Z.lor 0x80 v))) 0xC0 =? 0x80)
          && (Z.land (html.code (html.chr (Z.lor 0x80 v))) 0x3F =? v))
    6 0 eq_refl v) as Hall.
  cbv beta in Hall. apply andb_true_iff in Hall as [H1 H2];
    [|change (2 ^ Z.of_nat 6) with 64; lia].
  apply Z.eqb_eq in H2. auto.
Qed.

(** The first byte of two, three and four carries five, four and three
    bits. *)
Lemma leading_byte_of_2 (v : Z) :
  0 ≤ v < 32 →
  (Z.land (html.code (html.chr (Z.lor 0xC0 v))) 0xE0 =? 0xC0) = true
  ∧ Z.land (html.code (html.chr (Z.lor 0xC0 v))) 0x1F = v.
Proof.
  intros Hv.
  pose proof (all_range_spec
    (λ v, (Z.land (html.code (html.chr (Z.lor 0xC0 v))) 0xE0 =? 0xC0)
          && (Z.land (html.code (html.chr (Z.lor 0xC0 v))) 0x1F =? v))
    5 0 eq_refl v) as Hall.
  cbv beta in Hall. apply andb_true_iff in Hall as [H1 H2];
    [|change (2 ^ Z.of_nat 5) with 32; lia].
  apply Z.eqb_eq in H2. auto.
Qed.

Lemma leading_byte_of_3 (v : Z) :
  0 ≤ v < 16 →
  (Z.land (html.code (html.chr (Z.lor 0xE0 v))) 0xF0 =? 0xE0) = true
  ∧ Z.land (html.code (html.chr (Z.lor 0xE0 v))) 0x0F = v.
Proof.
  intros Hv.
  pose proof (all_range_spec
    (λ v, (Z.land (html.code (html.chr (Z.lor 0xE0 v))) 0xF0 =? 0xE0)
          && (Z.land (html.code (html.chr (Z.lor 0xE0 v))) 0x0F =? v))
    4 0 eq_refl v) as Hall.
  cbv beta in Hall. apply andb_true_iff in Hall as [H1 H2];
    [|change (2 ^ Z.of_nat 4) with 16; lia].
  apply Z.eqb_eq in H2. auto.
Qed.

Lemma leading_byte_of_4 (v : Z) :
  0 ≤ v < 8 →
  (Z.land (html.code (html.chr (Z.lor 0xF0 v))) 0xF8 =? 0xF0) = true
  ∧ Z.land (html.code (html.chr (Z.lor 0xF0 v))) 0x07 = v.
Proof.
  intros Hv.
  pose proof (all_range_spec
    (λ v, (Z.land (html.code (html.chr (Z.lor 0xF0 v))) 0xF8 =? 0xF0)
          && (Z.land (html.code (html.chr (Z.lor 0xF0 v))) 0x07 =? v))
    3 0 eq_refl v) as Hall.
  cbv beta in Hall. apply andb_true_iff in Hall as [H1 H2];
    [|change (2 ^ Z.of_nat 3) with 8; lia].
  apply Z.eqb_eq in H2. auto.
Qed.

Lemma six_bits (y : Z) : 0 ≤ Z.land y 0x3F < 64.
Proof.
  change 0x3F with (Z.ones 6). rewrite Z.land_ones by lia.
  change (2 ^ 6) with 64. apply Z.mod_pos_bound. lia.
Qed.

Lemma shiftr_range (x : Z) (n k : Z) :
  0 ≤ n → 0 ≤ k → 0 ≤ x < 2 ^ (n + k) → 0 ≤ Z.shiftr x n < 2 ^ k.
Proof.
  intros Hn Hk Hx. rewrite Z.shiftr_div_pow2 by lia.
  rewrite Z.pow_add_r in Hx by lia.
  split.
  - apply Z.div_pos; lia.
  - apply Z.div_lt_upper_bound; lia.
Qed.

Ltac bits x :=
  apply Z.bits_inj'; intros n Hn;
  change 0x3F with (Z.ones 6);
  repeat first [ rewrite Z.lor_spec | rewrite Z.land_spec
               | rewrite Z.testbit_ones by lia | rewrite Z.shiftl_spec by lia ];
  repeat match goal with
  | |- context [Z.testbit (Z.shiftr ?x ?k) ?m] =>
      destruct (Z.lt_ge_cases m 0);
      [rewrite (Z.testbit_neg_r (Z.shiftr x k) m) by lia
      |rewrite (Z.shiftr_spec x k m) by lia; replace (m + k) with n by lia]
  end;
  repeat match goal with
  | |- context [?a <=? ?b] => destruct (Z.leb_spec a b); try lia
  | |- context [?a <? ?b] => destruct (Z.ltb_spec a b); try lia
  end;
  try (destruct (Z.testbit x n); reflexivity).

Lemma two_groups (x : Z) :
  Z.lor (Z.shiftl (Z.shiftr x 6) 6) (Z.land x 0x3F) = x.
Proof. bits x. Qed.

Lemma three_groups (x : Z) :
  Z.lor (Z.shiftl (Z.shiftr x 12) 12)
    (Z.lor (Z.shiftl (Z.land (Z.shiftr x 6) 0x3F) 6) (Z.land x 0x3F)) = x.
Proof. bits x. Qed.

Lemma four_groups (x : Z) :
  Z.lor (Z.shiftl (Z.shiftr x 18) 18)
    (Z.lor (Z.shiftl (Z.land (Z.shiftr x 12) 0x3F) 12)
       (Z.lor (Z.shiftl (Z.land (Z.shiftr x 6) 0x3F) 6) (Z.land x 0x3F))) = x.
Proof. bits x. Qed.

(** [GetString] on a listed text field, for any unescaping function. *)
Lemma Track_GetString_listed (U : string → string) (t : Track)
  (name : string) (proj : Track → string) :
  (name, proj) ∈ Track_string_fields →
  Track_GetString U t name = Ret (U (proj t)).
Proof.
  intros Hin.
  pose proof (proj1 (Forall_forall _ _) Track_string_fields_values _ Hin t)
    as Hvalue. cbn in Hvalue.
  assert (Hkind : field_kind name = Some reflect.String).
  { unfold field_value in Hvalue. unfold field_kind.
    destruct (reflect.FieldByName Track_type name) as [[i ft]|] eqn:Hfind;
      [|discriminate].
    destruct (Track_field_value t name i ft Hfind) as (v & Hv & Hk).
    rewrite Hv in Hvalue. injection Hvalue as ->. rewrite <- Hk. reflexivity. }
  rewrite Track_GetString_eq, Hkind, Hvalue. reflexivity.
Qed.

(** Every code point that is a character is written as its UTF-8
    encoding. *)
Lemma EncodeRune_utf8 (x : Z) :
  html.is_scalar x = true → html.utf8_value (html.EncodeRune x) = Some x.
Proof.
  unfold html.is_scalar. intros Hx.
  apply andb_true_iff in Hx as [Hx Hsurrogate].
  apply andb_true_iff in Hx as [Hlow Hhigh].
  apply Z.leb_le in Hlow, Hhigh. apply negb_true_iff in Hsurrogate.
  unfold html.EncodeRune.
  rewrite (proj2 (Z.leb_le 0 x) Hlow). cbn [andb].
  destruct (Z.leb_spec x 0x7F) as [H7|H7].
  { cbn [html.utf8_value]. rewrite code_chr by lia.
    rewrite (proj2 (Z.ltb_lt x 0x80)) by lia. reflexivity. }
  destruct (Z.leb_spec x 0x7FF) as [H11|H11].
  { pose proof (shiftr_range x 6 5) as Hrange.
    change (2 ^ (6 + 5)) with 2048 in Hrange. change (2 ^ 5) with 32 in Hrange.
    destruct (leading_byte_of_2 (Z.shiftr x 6)) as [Ha Ha']; [lia|].
    destruct (continuation_byte (Z.land x 0x3F) (six_bits x)) as [Hb Hb'].
    cbn [html.utf8_value]. rewrite Ha, Hb, Ha', Hb'. cbn [andb].
    f_equal. apply two_groups. }
  rewrite Hsurrogate, (proj2 (Z.ltb_ge x 0)), (proj2 (Z.ltb_ge 0x10FFFF x)) by lia.
  cbn [orb].
  destruct (continuation_byte (Z.land x 0x3F) (six_bits x)) as [Hd Hd'].
  destruct (continuation_byte (Z.land (Z.shiftr x 6) 0x3F) (six_bits _))
    as [Hc Hc'].
  destruct (Z.leb_spec x 0xFFFF) as [H16|H16].
  { pose proof (shiftr_range x 12 4) as Hrange.
    change (2 ^ (12 + 4)) with 65536 in Hrange. change (2 ^ 4) with 16 in Hrange.
    destruct (leading_byte_of_3 (Z.shiftr x 12)) as [Ha Ha']; [lia|].
    cbn [html.utf8_value]. rewrite Ha, Hc, Hd, Ha', Hc', Hd'. cbn [andb].
    f_equal. apply three_groups. }
  pose proof (shiftr_range x 18 3) as Hrange.
  change (2 ^ (18 + 3)) with 2097152 in Hrange. change (2 ^ 3) with 8 in Hrange.
  destruct (leading_byte_of_4 (Z.shiftr x 18)) as [Ha Ha']; [lia|].
  destruct (continuation_byte (Z.land (Z.shiftr x 12) 0x3F) (six_bits _))
    as [Hb Hb'].
  cbn [html.utf8_value]. rewrite Ha, Hb, Hc, Hd, Ha', Hb', Hc', Hd'. cbn [andb].
  f_equal. apply four_groups.
Qed.

(** ** C3, C4: the typed accessors *)


Lemma Artist_is_a_string_field : Track_has_field "Artist" reflect.String.
Proof. apply field_kind_Some. reflexivity. Qed.

Lemma excerpt_knows_amp_lt_gt : html.knows_amp_lt_gt html.entity_excerpt.
Proof. repeat split. Qed.

(** The text [&#x41;&#66;&lt;] decodes to [AB<]. *)
Lemma decodes_sample :
  html.decodes html.entity_excerpt html.entity2_none
    (list_ascii_of_string "&#x41;&#66;&lt;") (list_ascii_of_string "AB<").
Proof.
  apply (html.decodes_hex _ _ "x"%char (list_ascii_of_string "41") 0x41
           (list_ascii_of_string "&#66;&lt;") (list_ascii_of_string "B<"));
    [left; reflexivity | discriminate | reflexivity | reflexivity |].
  apply (html.decodes_decimal _ _ (list_ascii_of_string "66") 66
           (list_ascii_of_string "&lt;") (list_ascii_of_string "<"));
    [discriminate | reflexivity | reflexivity |].
  apply (html.decodes_named _ _ (list_ascii_of_string "lt") 0x3C [] []);
    [discriminate | reflexivity | reflexivity | discriminate | constructor].
Qed.


(** C4: for every track and every field name, each of [GetString],
    [GetInt] and [GetBool] panics exactly when the name is no field of
    [Track] or is a field of a kind other than the accessor's; on a field
    of the accessor's kind it does not panic and returns the field's
    value. *)
Theorem accessors_panic_iff_not_a_field_of_the_kind
  (U : string → string) (t : Track) (name : string) :
  (panics (Track_GetString U t name)
     ↔ (∀ k, ¬ Track_has_field name k)
       ∨ ∃ k, Track_has_field name k ∧ k ≠ reflect.String)
  ∧ (panics (Track_GetInt t name)
     ↔ (∀ k, ¬ Track_has_field name k)
       ∨ ∃ k, Track_has_field name k ∧ k ≠ reflect.Int)
  ∧ (panics (Track_GetBool t name)
     ↔ (∀ k, ¬ Track_has_field name k)
       ∨ ∃ k, Track_has_field name k ∧ k ≠ reflect.Bool)
  ∧ (Track_has_field name reflect.String →
     ∃ proj, (name, proj) ∈ Track_string_fields
             ∧ Track_GetString U t name = Ret (U (proj t)))
  ∧ (Track_has_field name reflect.Int →
     ∃ proj, (name, proj) ∈ Track_int_fields
             ∧ Track_GetInt t name = Ret (proj t))
  ∧ (Track_has_field name reflect.Bool →
     ∃ proj, (name, proj) ∈ Track_bool_fields
             ∧ Track_GetBool t name = Ret (proj t)).
Proof.
  assert (HS : Track_has_field name reflect.String →
               ∃ proj, (name, proj) ∈ Track_string_fields
                       ∧ Track_GetString U t name = Ret (U (proj t))).
  { intros (proj & Hin & Hret)%(Track_GetString_field U). eauto. }
  assert (HI : Track_has_field name reflect.Int →
               ∃ proj, (name, proj) ∈ Track_int_fields
                       ∧ Track_GetInt t name = Ret (proj t)).
  { intros (proj & Hin & Hret)%Track_GetInt_field. eauto. }
  assert (HB : Track_has_field name reflect.Bool →
               ∃ proj, (name, proj) ∈ Track_bool_fields
                       ∧ Track_GetBool t name = Ret (proj t)).
  { intros (proj & Hin & Hret)%Track_GetBool_field. eauto. }
  repeat split; try assumption;
    try (apply panics_iff_not_a_field_of_kind;
         [ intros Hk%field_kind_Some;
           first [ destruct (HS Hk) as (? & _ & ->)
                 | destruct (HI Hk) as (? & _ & ->)
                 | destruct (HB Hk) as (? & _ & ->) ];
           intros []
         | intros Hk;
           first [ rewrite Track_GetString_eq
                 | rewrite Track_GetInt_eq
                 | rewrite Track_GetBool_eq ];
           destruct (field_kind name) as [[]|]; cbn; congruence || exact I ]).
Qed.

Lemma Name_is_a_string_field : Track_has_field "Name" reflect.String.
Proof. apply field_kind_Some. reflexivity. Qed.

Lemma DateAdded_is_a_struct_field : Track_has_field "DateAdded" reflect.Struct.
Proof. apply field_kind_Some. reflexivity. Qed.

Lemma TrackID_is_an_int_field : Track_has_field "TrackID" reflect.Int.
Proof. apply field_kind_Some. reflexivity. Qed.

Lemma Title_is_no_field : ∀ k, ¬ Track_has_field "Title" k.
Proof. apply field_kind_None. reflexivity. Qed.

Lemma accessors_panic_iff_not_a_field_of_the_kind_witness :
  let t := sample_Track 7 "Rock &amp; Roll" in
  (∀ k, ¬ Track_has_field "Title" k)
  ∧ panics (Track_GetInt t "Title")
  ∧ Track_has_field "Name" reflect.String
  ∧ panics (Track_GetInt t "Name")
  ∧ panics (Track_GetBool t "DateAdded")
  ∧ ¬ panics (Track_GetString id t "Name")
  ∧ Track_has_field "TrackID" reflect.Int
  ∧ ∃ proj, ("TrackID", proj) ∈ Track_int_fields
            ∧ Track_GetInt t "TrackID" = Ret (proj t).
Proof.
  intros t.
  pose proof (accessors_panic_iff_not_a_field_of_the_kind id t "Title")
    as (_ & HTitle & _).
  pose proof (accessors_panic_iff_not_a_field_of_the_kind id t "Name")
    as (HNameS & HNameI & _).
  pose proof (accessors_panic_iff_not_a_field_of_the_kind id t "DateAdded")
    as (_ & _ & HDate & _).
  pose proof (accessors_panic_iff_not_a_field_of_the_kind id t "TrackID")
    as (_ & _ & _ & _ & HId & _).
  split; [exact Title_is_no_field|]. split.
  { apply HTitle. left. exact Title_is_no_field. }
  split; [exact Name_is_a_string_field|]. split.
  { apply HNameI. right. exists reflect.String.
    split; [exact Name_is_a_string_field|discriminate]. }
  split.
  { apply HDate. right. exists reflect.Struct.
    split; [exact DateAdded_is_a_struct_field|discriminate]. }
  split.
  { intros Hp. apply HNameS in Hp as [Hno|(k & Hk & Hne)].
    - exact (Hno _ Name_is_a_string_field).
    - apply field_kind_Some in Hk. apply Hne. injection Hk as <-. reflexivity. }
  split; [exact TrackID_is_an_int_field|].
  exact (HId TrackID_is_an_int_field).
Defined.

(** ** C7, C1: the decode entry point *)

Lemma ReadAll_from_eq (r : Reader) :
  ∀ b : list byte,
    ReadAll_from b r =
      (b ++ Reader_data r,
       if decide (Reader_error r = io_EOF) then None else Some (Reader_error r)).
Proof.
  induction r as [p r IH|p err]; intros b; simpl.
  - rewrite IH, app_assoc. reflexivity.
  - reflexivity.
Qed.

Lemma ReadAll_eq (r : Reader) :
  ReadAll r =
    (Reader_data r,
     if decide (Reader_error r = io_EOF) then None else Some (Reader_error r)).
Proof. unfold ReadAll. rewrite ReadAll_from_eq. reflexivity. Qed.

Section Decoder.

Context {store : Type}.
Variable Unmarshal : list byte → Library → store → Library * option goerror * store.

Lemma ReadFromXML_eq (r : Reader) (h : store) :
  ReadFromXML Unmarshal r h =
    if decide (Reader_error r = io_EOF)
    then Unmarshal (Reader_data r) zero_Library h
    else (zero_Library, Some (Reader_error r), h).
Proof.
  unfold ReadFromXML. rewrite ReadAll_eq.
  destruct (decide (Reader_error r = io_EOF)); reflexivity.
Qed.

End Decoder.

(** C7: for every stream that ends in an error other than the end of
    file, [ReadFromXML] returns that very error with the zero-value
    library; the decoder plays no part in the outcome, which is the same
    for every decoder.  An error of [ReadFromXML] is either this error of
    the read step, or the error the decoder returned on the bytes of a
    stream read to its end. *)
Theorem ReadFromXML_error_kinds :
  (∀ (store : Type)
     (Unmarshal : list byte → Library → store → Library * option goerror * store)
     (r : Reader) (h : store),
     Reader_error r ≠ io_EOF →
     ReadFromXML Unmarshal r h = (zero_Library, Some (Reader_error r), h)
     ∧ ∀ Unmarshal', ReadFromXML Unmarshal' r h = ReadFromXML Unmarshal r h)
  ∧ (∀ (store : Type)
       (Unmarshal : list byte → Library → store → Library * option goerror * store)
       (r : Reader) (h h' : store) (l : Library) (e : goerror),
       ReadFromXML Unmarshal r h = (l, Some e, h') →
       (Reader_error r = e ∧ e ≠ io_EOF ∧ l = zero_Library ∧ h' = h)
       ∨ (Reader_error r = io_EOF
          ∧ Unmarshal (Reader_data r) zero_Library h = (l, Some e, h'))).
Proof.
  split.
  - intros store Unmarshal r h Herr.
    split; [|intros Unmarshal']; rewrite !ReadFromXML_eq;
      rewrite !decide_False by exact Herr; reflexivity.
  - intros store Unmarshal r h h' l e. rewrite ReadFromXML_eq.
    destruct (decide (Reader_error r = io_EOF)) as [Heof|Herr].
    + intros Hdec. right. auto.
    + intros [= <- <- <-]. left. auto.
Qed.

Lemma ReadFromXML_error_kinds_witness :
  Reader_error broken_Reader ≠ io_EOF
  ∧ ReadFromXML stream_Unmarshal broken_Reader ()
    = (zero_Library, Some (errorString "connection reset"), ())
  ∧ ReadFromXML atomic_Unmarshal broken_Reader ()
    = ReadFromXML stream_Unmarshal broken_Reader ().
Proof.
  assert (Herr : Reader_error broken_Reader ≠ io_EOF) by discriminate.
  destruct ReadFromXML_error_kinds as [Hread _].
  destruct (Hread unit stream_Unmarshal broken_Reader () Herr) as [Hzero Hsame].
  exact (conj Herr (conj Hzero (Hsame atomic_Unmarshal))).
Defined.

(** ** The model of the decoder always answers *)

Lemma cut_length (c : ascii) (s : string) :
  ∀ before from, plist.cut c s = Some (before, from) →
    (String.length before + String.length from = String.length s)%nat.
Proof.
  induction s as [|a s IH]; intros before from; simpl; [discriminate|].
  destruct (decide (a = c)); [intros [= <- <-]; reflexivity|].
  destruct (plist.cut c s) as [[b f]|]; [|discriminate].
  intros [= <- <-]. simpl. rewrite (IH b f eq_refl). reflexivity.
Qed.

Lemma cut_after_length (c : ascii) (s : string) :
  ∀ upto after, plist.cut_after c s = Some (upto, after) →
    (String.length upto + String.length after = String.length s)%nat
    ∧ (1 ≤ String.length upto)%nat.
Proof.
  induction s as [|a s IH]; intros upto after; simpl; [discriminate|].
  destruct (decide (a = c)); [intros [= <- <-]; simpl; lia|].
  destruct (plist.cut_after c s) as [[u f]|]; [|discriminate].
  intros [= <- <-]. simpl. destruct (IH u f eq_refl). lia.
Qed.

(** A tag that is found leaves less text than there was. *)
Lemma next_length (data skip tag rest : string) :
  plist.next data = (skip, tag, rest) →
  tag ≠ "" → (String.length rest < String.length data)%nat.
Proof.
  unfold plist.next.
  destruct (plist.cut "<" data) as [[s from]|] eqn:Hcut;
    [|intros [= _ <- _]; congruence].
  destruct (plist.cut_after ">" from) as [[tg r]|] eqn:Hafter;
    [|intros [= _ <- _]; congruence].
  intros [= <- <- <-] _.
  apply cut_length in Hcut. apply cut_after_length in Hafter. lia.
Qed.

Lemma unmarshalField_length (data : string) (i : nat) (f : reflect.StructField)
  (l l' : Library) (data' : string) :
  plist.unmarshalField data i f l = (l', inr data') →
  (String.length data' < String.length data)%nat.
Proof.
  unfold plist.unmarshalField.
  destruct (plist.next data) as [[skip tag] rest] eqn:Hnext.
  destruct (plist.next rest) as [[body etag] rest'] eqn:Hnext'.
  intros Hfield.
  assert (tag ≠ "" ∧ etag ≠ "" ∧ data' = rest') as (Htag & Hetag & ->).
  { repeat case_decide; try discriminate;
      try (destruct (plist.Atoi body); try discriminate);
      injection Hfield as _ <-; auto. }
  apply next_length in Hnext; [|assumption].
  apply next_length in Hnext'; [|assumption]. lia.
Qed.

(** Fuel for the length of the text is never used up. *)
Lemma dict_fuel (fuel : nat) :
  ∀ (data : string) (l : Library),
    (String.length data < fuel)%nat → plist.dict fuel data l ≠ None.
Proof.
  induction fuel as [|fuel IH]; intros data l Hfuel; [lia|].
  cbn [plist.dict].
  destruct (plist.next data) as [[skip tag] rest] eqn:Hnext.
  destruct (plist.next rest) as [[body tag'] rest'] eqn:Hnext'.
  repeat case_decide; try discriminate.
  destruct (plist.field_from 0 Library_type body) as [[i f]|]; [|discriminate].
  destruct (plist.unmarshalField rest' i f l) as [l' [err|data']] eqn:Hfield;
    [discriminate|].
  apply IH.
  apply unmarshalField_length in Hfield.
  apply next_length in Hnext; [|assumption].
  apply next_length in Hnext'; [|assumption]. lia.
Qed.

(** C1, as stated, fails: [ReadFromXML] returns the target as the
    decoder left it, and the decoder stores each entry of the dictionary
    as soon as it has read it.  A library file cut short after two
    entries is rejected for its missing end, and comes back as a library
    holding those two entries. *)
Lemma partial_Library_with_decode_error :
  ReadAll (Read_last (list_byte_of_string truncated_plist) io_EOF)
  = (list_byte_of_string truncated_plist, None)
  ∧ (∃ e, e ≠ plist.outside_model
          ∧ ReadFromXML plist.Unmarshal
              (Read_last (list_byte_of_string truncated_plist) io_EOF) ()
            = (with_ApplicationVersion "12.9.5.5" (with_MajorVersion 1 zero_Library),
               Some e, ()))
  ∧ with_ApplicationVersion "12.9.5.5" (with_MajorVersion 1 zero_Library)
    ≠ zero_Library
  ∧ ¬ no_partial_Library.
Proof.
  split; [reflexivity|]. split.
  { exists (errorString "eof inside <dict>"). split; [discriminate|].
    vm_compute. reflexivity. }
  split; [discriminate|].
  intros H.
  specialize (H (Read_last (list_byte_of_string truncated_plist) io_EOF)
                (list_byte_of_string truncated_plist)
                (errorString "eof inside <dict>") eq_refl).
  assert (Hzero : (ReadFromXML plist.Unmarshal
                     (Read_last (list_byte_of_string truncated_plist) io_EOF) ()).1
                  = (zero_Library, Some (errorString "eof inside <dict>"))).
  { apply H; [vm_compute; reflexivity | discriminate]. }
  vm_compute in Hzero. discriminate.
Qed.

(** C1 (amended): for every stream read to its end whose bytes the
    decoder rejects, [ReadFromXML] fails with the decoder's error, and
    the library it returns with the error is the target as the decoder
    left it, the decoder having been handed the zero value; the library
    holds nothing of the document whenever the decoder is one that leaves
    its target untouched when it fails. *)
Theorem ReadFromXML_decode_error {store : Type}
  (Unmarshal : list byte → Library → store → Library * option goerror * store)
  (r : Reader) (h : store) (e : goerror) :
  Reader_error r = io_EOF →
  (Unmarshal (Reader_data r) zero_Library h).1.2 = Some e →
  ReadFromXML Unmarshal r h = Unmarshal (Reader_data r) zero_Library h
  ∧ (ReadFromXML Unmarshal r h).1.2 = Some e
  ∧ (leaves_target_on_error Unmarshal →
     (ReadFromXML Unmarshal r h).1.1 = zero_Library).
Proof.
  intros Heof Hrejects. rewrite ReadFromXML_eq, decide_True by exact Heof.
  split; [reflexivity|]. split; [exact Hrejects|].
  intros Hleaves. apply Hleaves. rewrite Hrejects. discriminate.
Qed.

Lemma atomic_Unmarshal_leaves_target : leaves_target_on_error atomic_Unmarshal.
Proof.
  intros b l h. unfold atomic_Unmarshal.
  destruct (stream_Unmarshal b zero_Library h) as [[l' [e|]] h']; cbn; congruence.
Qed.

Lemma ReadFromXML_decode_error_witness :
  let r := Read_last (list_byte_of_string truncated_plist) io_EOF in
  let e := errorString "eof inside <dict>" in
  let a := Read_last [x01%byte] io_EOF in
  Reader_error r = io_EOF
  ∧ (plist.Unmarshal (Reader_data r) zero_Library ()).1.2 = Some e
  ∧ (ReadFromXML plist.Unmarshal r ()).1.2 = Some e
  ∧ (ReadFromXML plist.Unmarshal r ()).1.1
    = with_ApplicationVersion "12.9.5.5" (with_MajorVersion 1 zero_Library)
  ∧ (atomic_Unmarshal (Reader_data a) zero_Library ()).1.2
    = Some (errorString "unexpected EOF")
  ∧ leaves_target_on_error atomic_Unmarshal
  ∧ (ReadFromXML atomic_Unmarshal a ()).1.1 = zero_Library.
Proof.
  intros r e a.
  assert (Hrejects : (plist.Unmarshal (Reader_data r) zero_Library ()).1.2 = Some e)
    by (vm_compute; reflexivity).
  destruct (ReadFromXML_decode_error plist.Unmarshal r () e eq_refl Hrejects)
    as (Hsame & Herr & _).
  destruct (ReadFromXML_decode_error atomic_Unmarshal a ()
              (errorString "unexpected EOF") eq_refl eq_refl) as (_ & _ & Hzero).
  split; [reflexivity|]. split; [exact Hrejects|]. split; [exact Herr|]. split.
  { rewrite Hsame. vm_compute. reflexivity. }
  split; [reflexivity|]. split; [exact atomic_Unmarshal_leaves_target|].
  exact (Hzero atomic_Unmarshal_leaves_target).
Defined.

(** ** C8: document keys *)

(** Whatever its tag, a field is bound to its identifier or to the key
    its tag spells out. *)
Lemma plist_key_name_or_tag (f : reflect.StructField) : key_is_name_or_tag f.
Proof.
  unfold key_is_name_or_tag, plist_key.
  destruct (reflect.Lookup (reflect.Tag f) "plist"); auto.
Qed.

(** C8: every field of the four structs is bound to the document key
    that is its own identifier or, where its tag gives one, the key of
    the tag; no two fields of a struct share a key.  [TrackNumber] is
    bound to "Track Number", [TrackID] to "Track ID", [DateAdded] to
    "Date Added" and [PlaylistItems] to "Playlist Items", and these keys
    lead back to these fields.  The same holds of the structs as
    src/itl.go declares them. *)
Theorem fields_bind_to_document_keys :
  let structs :=
    [Library_type; Track_type; Playlist_type; PlaylistItem_type;
     ItlGo.Library_type; ItlGo.Track_type; ItlGo.Playlist_type;
     ItlGo.PlaylistItem_type] in
  Forall (Forall key_is_name_or_tag) structs
  ∧ Forall (λ fields, NoDup (plist_key <$> fields)) structs
  ∧ Forall (λ fields,
      key_of fields "TrackNumber" = Some "Track Number"
      ∧ key_of fields "TrackID" = Some "Track ID"
      ∧ key_of fields "DateAdded" = Some "Date Added"
      ∧ key_of fields "Name" = Some "Name"
      ∧ reflect.Name <$> field_of_key fields "Track Number" = Some "TrackNumber"
      ∧ reflect.Name <$> field_of_key fields "Track ID" = Some "TrackID"
      ∧ reflect.Name <$> field_of_key fields "Date Added" = Some "DateAdded")
      [Track_type; ItlGo.Track_type]
  ∧ Forall (λ fields,
      key_of fields "PlaylistItems" = Some "Playlist Items"
      ∧ reflect.Name <$> field_of_key fields "Playlist Items" = Some "PlaylistItems")
      [Playlist_type; ItlGo.Playlist_type]
  ∧ Forall (λ fields, key_of fields "TrackID" = Some "Track ID")
      [PlaylistItem_type; ItlGo.PlaylistItem_type]
  ∧ Forall (λ fields,
      key_of fields "MajorVersion" = Some "Major Version"
      ∧ key_of fields "Tracks" = Some "Tracks"
      ∧ key_of fields "Playlists" = Some "Playlists")
      [Library_type; ItlGo.Library_type].
Proof.
  intros structs. split; [|split].
  - apply Forall_forall. intros fields _.
    apply Forall_forall. intros f _. apply plist_key_name_or_tag.
  - unfold structs. repeat apply Forall_cons_2; try apply Forall_nil_2;
      apply (bool_decide_eq_true_1 (NoDup _)); vm_compute; reflexivity.
  - repeat split; repeat apply Forall_cons_2; try apply Forall_nil_2;
      repeat split; reflexivity.
Qed.

(** * Further properties *)

(** ** The lookup helpers together *)

Section Helpers.

Variable mapiter : gmap string Track → list (string * Track).
Hypothesis mapiter_perm : ∀ m, mapiter m ≡ₚ map_to_list m.

(** The call leaves the table of the library as it was. *)
Lemma Library_AllTracks_map_contents (l : Library) (h : heap) :
  valid_library h l →
  map_contents (Library_AllTracks mapiter l h).2 (Tracks l)
  = map_contents h (Tracks l).
Proof.
  intros Hvalid. apply map_contents_agree. intros q Hq.
  apply (Library_AllTracks_frame mapiter mapiter_perm), Hvalid, Hq.
Qed.

Lemma Library_AllTracks_slice_elems (l : Library) (h : heap) :
  slice_elems (Library_AllTracks mapiter l h).2 (Library_AllTracks mapiter l h).1
  = (mapiter (map_contents h (Tracks l))).*2.
Proof.
  pose proof (Library_AllTracks_elems mapiter mapiter_perm l h) as He.
  destruct (Library_AllTracks mapiter l h) as [s h']. exact He.
Qed.

(** A track is among the elements exactly when the table holds it under
    some key. *)
Lemma elem_of_AllTracks (l : Library) (h : heap) (t : Track) :
  t ∈ slice_elems (Library_AllTracks mapiter l h).2 (Library_AllTracks mapiter l h).1
  ↔ ∃ k, map_contents h (Tracks l) !! k = Some t.
Proof.
  rewrite Library_AllTracks_slice_elems, mapiter_perm, list_elem_of_fmap.
  split.
  - intros ([k t'] & -> & Hin). exists k. apply elem_of_map_to_list, Hin.
  - intros [k Hk]. exists (k, t). split; [reflexivity|].
    apply elem_of_map_to_list, Hk.
Qed.

End Helpers.

Lemma Library_Track_found (l : Library) (k : string) (h : heap) (t : Track) :
  Library_Track l k h = (t, None) ↔ map_contents h (Tracks l) !! k = Some t.
Proof.
  rewrite Library_Track_eq.
  destruct (map_contents h (Tracks l) !! k) as [t'|]; split; congruence.
Qed.

(** X1: the tracks in the slice [AllTracks()] returns are exactly the
    tracks that [Track(k)] finds for some identifier [k], asked after the
    call as well as before it. *)
Theorem AllTracks_elements_are_the_tracks_found
  (mapiter : gmap string Track → list (string * Track))
  (mapiter_perm : ∀ m, mapiter m ≡ₚ map_to_list m)
  (l : Library) (h : heap) (t : Track) :
  valid_library h l →
  let r := Library_AllTracks mapiter l h in
  (t ∈ slice_elems r.2 r.1 ↔ ∃ k, Library_Track l k h = (t, None))
  ∧ (t ∈ slice_elems r.2 r.1 ↔ ∃ k, Library_Track l k r.2 = (t, None)).
Proof.
  intros Hvalid r. unfold r.
  rewrite (elem_of_AllTracks mapiter mapiter_perm).
  split; apply exist_proper; intros k; rewrite Library_Track_found;
    [|rewrite (Library_AllTracks_map_contents mapiter mapiter_perm) by exact Hvalid];
    reflexivity.
Qed.

Lemma sample_valid_library : valid_library sample_heap sample_Library.
Proof. intros p [= <-]. vm_compute. eauto. Qed.

Lemma AllTracks_elements_are_the_tracks_found_witness :
  let r := Library_AllTracks map_to_list sample_Library sample_heap in
  let t := sample_Track 7 "Rock &amp; Roll" in
  valid_library sample_heap sample_Library
  ∧ Library_Track sample_Library "7" sample_heap = (t, None)
  ∧ t ∈ slice_elems r.2 r.1
  ∧ ∃ k, Library_Track sample_Library k r.2 = (t, None).
Proof.
  intros r t.
  destruct (AllTracks_elements_are_the_tracks_found map_to_list
              (λ m, reflexivity (map_to_list m)) sample_Library sample_heap t
              sample_valid_library) as [Hbefore Hafter].
  assert (Hfound : Library_Track sample_Library "7" sample_heap = (t, None))
    by (vm_compute; reflexivity).
  assert (Hin : t ∈ slice_elems r.2 r.1) by (apply Hbefore; eauto).
  exact (conj sample_valid_library (conj Hfound (conj Hin (proj1 Hafter Hin)))).
Defined.

(** X2: in a library whose table is keyed by the identifiers of its
    tracks, the tracks [AllTracks()] returns have pairwise distinct
    [TrackID]s, and looking each of them up by its own identifier gives
    that very track back. *)
Theorem AllTracks_of_keyed_library
  (mapiter : gmap string Track → list (string * Track))
  (mapiter_perm : ∀ m, mapiter m ≡ₚ map_to_list m)
  (l : Library) (h : heap) :
  keyed_by_TrackID (map_contents h (Tracks l)) →
  let r := Library_AllTracks mapiter l h in
  NoDup (TrackID <$> slice_elems r.2 r.1)
  ∧ ∀ t, t ∈ slice_elems r.2 r.1 →
         Library_Track l (Itoa (TrackID t)) h = (t, None).
Proof.
  intros Hkeyed r. unfold r. split.
  - rewrite (Library_AllTracks_slice_elems mapiter mapiter_perm), mapiter_perm.
    apply (NoDup_fmap_1 Itoa).
    assert (Hkeys : Itoa <$> (TrackID <$> (map_to_list (map_contents h (Tracks l))).*2)
                    = (map_to_list (map_contents h (Tracks l))).*1).
    { assert (Hall : Forall (λ kt, Itoa (TrackID kt.2) = kt.1)
                       (map_to_list (map_contents h (Tracks l)))).
      { apply Forall_forall. intros [k t] Hin. apply Hkeyed.
        apply elem_of_map_to_list, Hin. }
      induction Hall as [|kt kts Hkt _ IH]; [reflexivity|].
      cbn. rewrite Hkt. f_equal. exact IH. }
    rewrite Hkeys. apply NoDup_fst_map_to_list.
  - intros t [k Hk]%(elem_of_AllTracks mapiter mapiter_perm).
    apply Library_Track_found. rewrite (Hkeyed k t Hk). exact Hk.
Qed.

Lemma AllTracks_of_keyed_library_witness :
  let r := Library_AllTracks map_to_list sample_Library sample_heap in
  keyed_by_TrackID (map_contents sample_heap (Tracks sample_Library))
  ∧ NoDup (TrackID <$> slice_elems r.2 r.1)
  ∧ ∀ t, t ∈ slice_elems r.2 r.1 →
         Library_Track sample_Library (Itoa (TrackID t)) sample_heap = (t, None).
Proof.
  intros r. split; [exact sample_keyed_by_TrackID|].
  exact (AllTracks_of_keyed_library map_to_list
           (λ m, reflexivity (map_to_list m)) sample_Library sample_heap
           sample_keyed_by_TrackID).
Defined.

(** X3: two calls of [AllTracks()] on a library that has tracks return
    slices over two different arrays.  On every library the second call
    leaves the elements of the first slice as they were, holds the same
    tracks up to order, and is not affected by later assignments to
    elements of the first slice. *)
Theorem AllTracks_twice_is_two_copies
  (mapiter1 mapiter2 : gmap string Track → list (string * Track))
  (mapiter1_perm : ∀ m, mapiter1 m ≡ₚ map_to_list m)
  (mapiter2_perm : ∀ m, mapiter2 m ≡ₚ map_to_list m)
  (l : Library) (h : heap) :
  valid_library h l →
  let r1 := Library_AllTracks mapiter1 l h in
  let r2 := Library_AllTracks mapiter2 l r1.2 in
  (map_contents h (Tracks l) ≠ ∅ → ptr r1.1 ≠ ptr r2.1)
  ∧ slice_elems r2.2 r1.1 = slice_elems r1.2 r1.1
  ∧ slice_elems r2.2 r2.1 ≡ₚ slice_elems r1.2 r1.1
  ∧ ∀ (ws : list (nat * Track)) (h' : heap),
      slice_set_all r1.1 ws r2.2 = Ret h' →
      slice_elems h' r2.1 = slice_elems r2.2 r2.1.
Proof.
  intros Hvalid r1 r2.
  set (m := map_contents h (Tracks l)).
  assert (Hm : map_contents r1.2 (Tracks l) = m)
    by (apply (Library_AllTracks_map_contents mapiter1 mapiter1_perm), Hvalid).
  assert (He1 : slice_elems r1.2 r1.1 = (mapiter1 m).*2)
    by apply (Library_AllTracks_slice_elems mapiter1 mapiter1_perm).
  assert (He2 : slice_elems r2.2 r2.1 = (mapiter2 m).*2).
  { unfold r2. rewrite (Library_AllTracks_slice_elems mapiter2 mapiter2_perm), Hm.
    reflexivity. }
  pose proof (Library_AllTracks_eq mapiter2 mapiter2_perm l r1.2) as Hr2.
  cbn zeta in Hr2. rewrite Hm in Hr2. fold r2 in Hr2.
  pose proof (Library_AllTracks_eq mapiter1 mapiter1_perm l h) as Hr1.
  cbn zeta in Hr1. fold r1 m in Hr1.
  clearbody r2. clearbody r1.
  split; [|split; [|split]].
  3: { rewrite He1, He2, mapiter1_perm, mapiter2_perm. reflexivity. }
  all: clear He1 He2 Hm; subst r2 r1;
    destruct (decide (size m = 0)%nat) as [Hsize|Hsize]; cbn [fst snd ptr].
  - intros Hne. apply map_size_empty_iff in Hsize. contradiction.
  - intros _ [= Hp].
    pose proof (newobject_not_allocated
                  (<[newobject h := TrackArr (mapiter1 m).*2]> h)) as Hnew.
    rewrite <- Hp, lookup_insert_eq in Hnew. discriminate.
  - reflexivity.
  - unfold slice_elems, array_at. cbn [ptr len].
    rewrite lookup_insert_ne; [reflexivity|].
    intros Hp.
    pose proof (newobject_not_allocated
                  (<[newobject h := TrackArr (mapiter1 m).*2]> h)) as Hnew.
    rewrite Hp, lookup_insert_eq in Hnew. discriminate.
  - intros ws h' Hset. apply slice_set_all_empty in Hset as ->; reflexivity.
  - intros ws h' Hset. unfold slice_elems, array_at. cbn [ptr len].
    rewrite (slice_set_all_frame _ ws _ h' _ Hset); [reflexivity|].
    cbn [ptr]. intros [= Hp].
    pose proof (newobject_not_allocated
                  (<[newobject h := TrackArr (mapiter1 m).*2]> h)) as Hnew.
    rewrite <- Hp, lookup_insert_eq in Hnew. discriminate.
Qed.

Lemma sample_has_tracks : map_contents sample_heap (Tracks sample_Library) ≠ ∅.
Proof.
  intros Hempty.
  assert (Hsize : size (map_contents sample_heap (Tracks sample_Library)) = 1%nat)
    by (vm_compute; reflexivity).
  rewrite Hempty, map_size_empty in Hsize. discriminate.
Qed.

Lemma AllTracks_twice_is_two_copies_witness :
  let r1 := Library_AllTracks map_to_list sample_Library sample_heap in
  let r2 := Library_AllTracks map_to_list sample_Library r1.2 in
  let ws := [(0%nat, sample_Track 9 "Replaced")] in
  valid_library sample_heap sample_Library
  ∧ map_contents sample_heap (Tracks sample_Library) ≠ ∅
  ∧ ptr r1.1 ≠ ptr r2.1
  ∧ ∃ h', slice_set_all r1.1 ws r2.2 = Ret h'
          ∧ slice_elems h' r1.1 = [sample_Track 9 "Replaced"]
          ∧ slice_elems h' r2.1 = slice_elems r2.2 r2.1.
Proof.
  intros r1 r2 ws.
  destruct (AllTracks_twice_is_two_copies map_to_list map_to_list
              (λ m, reflexivity (map_to_list m)) (λ m, reflexivity (map_to_list m))
              sample_Library sample_heap sample_valid_library)
    as (Hptr & _ & _ & Hwrites).
  split; [exact sample_valid_library|]. split; [exact sample_has_tracks|].
  split; [exact (Hptr sample_has_tracks)|].
  destruct (slice_set_all r1.1 ws r2.2) as [h'|v] eqn:Hset;
    [|vm_compute in Hset; discriminate].
  exists h'. split; [reflexivity|]. split.
  - vm_compute in Hset. injection Hset as <-. vm_compute. reflexivity.
  - exact (Hwrites ws h' Hset).
Defined.

(** X4: [AllTracks()] returns a slice that fills its array: its capacity
    is its length, the number of tracks.  For a library that has tracks
    the call allocates one object, the array of that slice; for a library
    without tracks it allocates nothing.  An [append] to the returned
    slice therefore moves to a new array, whatever capacity the runtime
    gives it, and leaves the elements of the returned slice as they
    were. *)
Theorem AllTracks_returns_a_full_slice
  (mapiter : gmap string Track → list (string * Track))
  (mapiter_perm : ∀ m, mapiter m ≡ₚ map_to_list m)
  (grow : nat → nat → nat)
  (l : Library) (h : heap) (t : Track) :
  let r := Library_AllTracks mapiter l h in
  let r' := append_with grow r.1 t r.2 in
  cap r.1 = len r.1
  ∧ len r.1 = size (map_contents h (Tracks l))
  ∧ (map_contents h (Tracks l) = ∅ → r.2 = h)
  ∧ (map_contents h (Tracks l) ≠ ∅ →
     ∃ p, ptr r.1 = Some p ∧ (p ∉ dom h) ∧ dom r.2 = {[p]} ∪ dom h)
  ∧ ptr r'.1 ≠ ptr r.1
  ∧ slice_elems r'.2 r.1 = slice_elems r.2 r.1
  ∧ slice_elems r'.2 r'.1 = slice_elems r.2 r.1 ++ [t].
Proof.
  intros r r'. unfold r'. clear r'.
  assert (He : slice_elems r.2 r.1 = (mapiter (map_contents h (Tracks l))).*2)
    by apply (Library_AllTracks_slice_elems mapiter mapiter_perm).
  pose proof (Library_AllTracks_eq mapiter mapiter_perm l h) as Hr.
  fold r in Hr. cbn zeta in Hr. clearbody r. subst r.
  set (m := map_contents h (Tracks l)) in *.
  set (a := (mapiter m).*2) in *.
  assert (Hlen : length a = size m).
  { unfold a. rewrite length_fmap. apply mapiter_length, mapiter_perm. }
  destruct (decide (size m = 0)%nat) as [Hsize|Hsize]; cbn [fst snd] in *.
  - assert (Ha : a = []) by (apply length_zero_iff_nil; lia).
    split; [reflexivity|]. split; [cbn; lia|]. split; [reflexivity|].
    split; [intros Hne; apply map_size_empty_iff in Hsize; contradiction|].
    unfold append_with. cbn [ptr len cap]. rewrite decide_False by lia.
    cbn [fst snd ptr]. split.
    { intros [= Hp]. exact (newobject_not_zerobase h Hp). }
    rewrite He, Ha. split; [reflexivity|].
    unfold slice_elems, array_at. cbn [ptr len].
    rewrite lookup_insert_eq. reflexivity.
  - set (p := newobject h) in *.
    set (h1 := <[p := TrackArr a]> h) in *.
    split; [reflexivity|]. split; [reflexivity|].
    split; [intros Hempty; rewrite Hempty, map_size_empty in Hsize; contradiction|].
    split.
    { intros _. exists p. split; [reflexivity|]. split.
      - apply not_elem_of_dom, newobject_not_allocated.
      - apply dom_insert_L. }
    assert (Hp : h1 !! p = Some (TrackArr a)) by apply lookup_insert_eq.
    unfold append_with. cbn [ptr len cap]. rewrite decide_False by lia.
    set (q := newobject h1).
    assert (Hq : q ≠ p).
    { intros Heq. pose proof (newobject_not_allocated h1) as Hf.
      fold q in Hf. rewrite Heq, Hp in Hf. discriminate. }
    cbn [fst snd ptr]. split; [congruence|]. split.
    + unfold slice_elems, array_at. cbn [ptr len].
      rewrite lookup_insert_ne by exact Hq. reflexivity.
    + rewrite He. unfold slice_elems at 1, array_at. cbn [ptr len].
      rewrite lookup_insert_eq.
      rewrite (cons_middle t), app_assoc.
      apply take_app_length'. rewrite length_app, Hlen. simpl. lia.
Qed.

Lemma AllTracks_returns_a_full_slice_witness :
  let r := Library_AllTracks map_to_list sample_Library sample_heap in
  let t := sample_Track 9 "Appended" in
  let r' := append r.1 t r.2 in
  let e := Library_AllTracks map_to_list zero_Library sample_heap in
  cap r.1 = 1%nat
  ∧ map_contents sample_heap (Tracks sample_Library) ≠ ∅
  ∧ (∃ p, ptr r.1 = Some p ∧ (p ∉ dom sample_heap)
          ∧ dom r.2 = {[p]} ∪ dom sample_heap)
  ∧ ptr r'.1 ≠ ptr r.1
  ∧ slice_elems r'.2 r.1 = [sample_Track 7 "Rock &amp; Roll"]
  ∧ slice_elems r'.2 r'.1 = [sample_Track 7 "Rock &amp; Roll"; t]
  ∧ map_contents sample_heap (Tracks zero_Library) = ∅
  ∧ e.2 = sample_heap.
Proof.
  intros r t r' e.
  destruct (AllTracks_returns_a_full_slice map_to_list
              (λ m, reflexivity (map_to_list m)) growcap
              sample_Library sample_heap t)
    as (Hcap & _ & _ & Halloc & Hptr & Hold & Hnew).
  destruct (AllTracks_returns_a_full_slice map_to_list
              (λ m, reflexivity (map_to_list m)) growcap
              zero_Library sample_heap t)
    as (_ & _ & Hnothing & _).
  fold r in Hcap, Halloc, Hptr, Hold, Hnew.
  assert (He : slice_elems r.2 r.1 = [sample_Track 7 "Rock &amp; Roll"])
    by (vm_compute; reflexivity).
  split; [rewrite Hcap; vm_compute; reflexivity|].
  split; [exact sample_has_tracks|].
  split; [exact (Halloc sample_has_tracks)|].
  split; [exact Hptr|]. split; [rewrite <- He; exact Hold|].
  split; [transitivity (slice_elems r.2 r.1 ++ [t]);
            [exact Hnew | rewrite He; reflexivity]|].
  split; [reflexivity|]. exact (Hnothing eq_refl).
Defined.

(** ** The accessors together *)

(** The fields of [Track] that are times. *)
Lemma Track_time_fields (name : string) :
  Track_has_field name reflect.Struct
  ↔ name ∈ ["DateModified"; "DateAdded"; "PlayDateUTC"; "SkipDate"; "ReleaseDate"].
Proof.
  split.
  - intros [tag Hin].
    assert (Hall : Forall (λ f, reflect.Type_ f = reflect.Struct →
                     reflect.Name f ∈ ["DateModified"; "DateAdded"; "PlayDateUTC";
                                       "SkipDate"; "ReleaseDate"]) Track_type).
    { repeat apply Forall_cons_2; try apply Forall_nil_2;
        cbn [reflect.Type_ reflect.Name];
        first [ discriminate
              | intros _; apply (bool_decide_eq_true_1 (_ ∈ _)); vm_compute; reflexivity ]. }
    exact (proj1 (Forall_forall _ _) Hall _ Hin eq_refl).
  - intros Hin. apply field_kind_Some.
    repeat (apply elem_of_cons in Hin as [->|Hin]; [reflexivity|]).
    inversion Hin.
Qed.

(** X5: the five time-valued fields of [Track] ([DateModified],
    [DateAdded], [PlayDateUTC], [SkipDate], [ReleaseDate]) cannot be read
    by name: on each of them [GetString], [GetInt] and [GetBool] all
    panic, with the message of a field of the wrong type. *)
Theorem time_fields_have_no_accessor
  (U : string → string) (t : Track) (name : string) :
  name ∈ ["DateModified"; "DateAdded"; "PlayDateUTC"; "SkipDate"; "ReleaseDate"] →
  Track_has_field name reflect.Struct
  ∧ Track_GetString U t name = Panic "field is not a string"
  ∧ Track_GetInt t name = Panic "field is not an int"
  ∧ Track_GetBool t name = Panic "field is not a bool".
Proof.
  intros Hin%Track_time_fields. split; [exact Hin|].
  apply field_kind_Some in Hin.
  rewrite Track_GetString_eq, Track_GetInt_eq, Track_GetBool_eq, Hin. auto.
Qed.

Lemma time_fields_have_no_accessor_witness :
  let t := sample_Track 7 "Rock &amp; Roll" in
  "SkipDate" ∈ ["DateModified"; "DateAdded"; "PlayDateUTC"; "SkipDate"; "ReleaseDate"]
  ∧ Track_GetString id t "SkipDate" = Panic "field is not a string"
  ∧ Track_GetInt t "SkipDate" = Panic "field is not an int"
  ∧ Track_GetBool t "SkipDate" = Panic "field is not a bool".
Proof.
  intros t.
  assert (Hin : "SkipDate" ∈ ["DateModified"; "DateAdded"; "PlayDateUTC";
                              "SkipDate"; "ReleaseDate"])
    by (apply (bool_decide_eq_true_1 (_ ∈ _)); vm_compute; reflexivity).
  split; [exact Hin|].
  exact (proj2 (time_fields_have_no_accessor id t "SkipDate" Hin)).
Defined.

(** X6: on any one name at most one of the three accessors returns: a
    name on which one of them does not panic makes the other two panic. *)
Theorem at_most_one_accessor_returns
  (U : string → string) (t : Track) (name : string) :
  (¬ panics (Track_GetString U t name) →
   panics (Track_GetInt t name) ∧ panics (Track_GetBool t name))
  ∧ (¬ panics (Track_GetInt t name) →
     panics (Track_GetString U t name) ∧ panics (Track_GetBool t name))
  ∧ (¬ panics (Track_GetBool t name) →
     panics (Track_GetString U t name) ∧ panics (Track_GetInt t name)).
Proof.
  rewrite Track_GetString_eq, Track_GetInt_eq, Track_GetBool_eq.
  destruct (field_kind name) as [[]|]; cbn; tauto.
Qed.

Lemma at_most_one_accessor_returns_witness :
  let t := sample_Track 7 "Rock &amp; Roll" in
  ¬ panics (Track_GetInt t "TrackID")
  ∧ panics (Track_GetString id t "TrackID")
  ∧ panics (Track_GetBool t "TrackID").
Proof.
  intros t.
  assert (Hret : ¬ panics (Track_GetInt t "TrackID")) by (intros []).
  destruct (at_most_one_accessor_returns id t "TrackID") as (_ & HInt & _).
  exact (conj Hret (HInt Hret)).
Defined.

(** X7: the accessors take the identifier of a field, not its document
    key: for every field of [Track] whose [plist] tag gives a key other
    than the field's identifier, that key is the name of no field, and
    all three accessors panic on it as on an invalid field. *)
Theorem accessors_reject_document_keys
  (U : string → string) (t : Track) (f : reflect.StructField) (key : string) :
  f ∈ Track_type →
  reflect.Lookup (reflect.Tag f) "plist" = Some key →
  key ≠ reflect.Name f →
  (∀ k, ¬ Track_has_field key k)
  ∧ Track_GetString U t key = Panic "invalid field"
  ∧ Track_GetInt t key = Panic "invalid field"
  ∧ Track_GetBool t key = Panic "invalid field".
Proof.
  intros Hin Htag Hne.
  assert (Hall : Forall (λ f, ∀ key,
                   reflect.Lookup (reflect.Tag f) "plist" = Some key →
                   key ≠ reflect.Name f → field_kind key = None) Track_type).
  { repeat apply Forall_cons_2; try apply Forall_nil_2;
      intros key' Hlook; cbn in Hlook;
      first [ discriminate Hlook | injection Hlook as <-; intros _; reflexivity ]. }
  pose proof (proj1 (Forall_forall _ _) Hall f Hin key Htag Hne) as Hnone.
  split; [apply field_kind_None, Hnone|].
  rewrite Track_GetString_eq, Track_GetInt_eq, Track_GetBool_eq, Hnone. auto.
Qed.

Lemma accessors_reject_document_keys_witness :
  let t := sample_Track 7 "Rock &amp; Roll" in
  let f := reflect.field "ITunesU" reflect.Bool [("plist", "iTunesU")] in
  f ∈ Track_type
  ∧ Track_GetBool t "ITunesU" = Ret false
  ∧ Track_GetBool t "iTunesU" = Panic "invalid field"
  ∧ Track_GetInt t "Track ID" = Panic "invalid field".
Proof.
  intros t f.
  assert (Hf : f ∈ Track_type).
  { apply list_elem_of_In. vm_compute. tauto. }
  assert (Hg : reflect.field "TrackID" reflect.Int [("plist", "Track ID")] ∈ Track_type).
  { apply list_elem_of_In. vm_compute. tauto. }
  destruct (accessors_reject_document_keys id t f "iTunesU" Hf eq_refl)
    as (_ & _ & _ & HB); [discriminate|].
  destruct (accessors_reject_document_keys id t _ "Track ID" Hg eq_refl)
    as (_ & _ & HI & _); [discriminate|].
  split; [exact Hf|]. split; [reflexivity|]. split; [exact HB | exact HI].
Defined.

(** Closes the propositional cases the accessors' equations leave. *)
Ltac accessor_iff :=
  repeat split; intros;
  repeat match goal with
    | H : False |- _ => destruct H
    | H : _ ∨ _ |- _ => destruct H
    | H : ∃ _, _ |- _ => destruct H as (? & ? & ?)
    end;
  simplify_eq; eauto.

(** X8: the value an accessor panics with tells the two errors apart:
    it is "invalid field" exactly when the name is no field of [Track],
    and "field is not a string" (an int, a bool) exactly when the name is
    a field of another kind; an accessor panics with nothing else. *)
Theorem accessor_panic_values
  (U : string → string) (t : Track) (name : string) :
  let no_field := ∀ k, ¬ Track_has_field name k in
  let field_of_other_kind K := ∃ k, Track_has_field name k ∧ k ≠ K in
  (Track_GetString U t name = Panic "invalid field" ↔ no_field)
  ∧ (Track_GetInt t name = Panic "invalid field" ↔ no_field)
  ∧ (Track_GetBool t name = Panic "invalid field" ↔ no_field)
  ∧ (Track_GetString U t name = Panic "field is not a string"
     ↔ field_of_other_kind reflect.String)
  ∧ (Track_GetInt t name = Panic "field is not an int"
     ↔ field_of_other_kind reflect.Int)
  ∧ (Track_GetBool t name = Panic "field is not a bool"
     ↔ field_of_other_kind reflect.Bool)
  ∧ (∀ v, Track_GetString U t name = Panic v →
          v = "invalid field" ∨ v = "field is not a string")
  ∧ (∀ v, Track_GetInt t name = Panic v →
          v = "invalid field" ∨ v = "field is not an int")
  ∧ (∀ v, Track_GetBool t name = Panic v →
          v = "invalid field" ∨ v = "field is not a bool").
Proof.
  intros no_field field_of_other_kind.
  assert (Hno : field_kind name = None ↔ no_field) by apply field_kind_None.
  assert (Hother : ∀ K, (∃ k, field_kind name = Some k ∧ k ≠ K)
                        ↔ field_of_other_kind K).
  { intros K. apply exist_proper. intros k. rewrite field_kind_Some. reflexivity. }
  rewrite <- Hno, <- !Hother.
  rewrite Track_GetString_eq, Track_GetInt_eq, Track_GetBool_eq.
  destruct (field_kind name) as [k|] eqn:Hkind.
  - destruct (field_value_of_kind t name k Hkind) as (v & -> & Hvk).
    destruct v; cbn in Hvk; subst k; cbn; accessor_iff.
  - cbn. accessor_iff.
Qed.

Lemma accessor_panic_values_witness :
  let t := sample_Track 7 "Rock &amp; Roll" in
  (∀ k, ¬ Track_has_field "Title" k)
  ∧ Track_GetString id t "Title" = Panic "invalid field"
  ∧ Track_has_field "Name" reflect.String
  ∧ Track_GetInt t "Name" = Panic "field is not an int".
Proof.
  intros t.
  destruct (accessor_panic_values id t "Title") as (HTitle & _).
  destruct (accessor_panic_values id t "Name") as (_ & _ & _ & _ & HName & _).
  split; [exact Title_is_no_field|]. split; [apply HTitle, Title_is_no_field|].
  split; [exact Name_is_a_string_field|].
  apply HName. exists reflect.String.
  split; [exact Name_is_a_string_field|discriminate].
Defined.

(** X9: on a text field whose text holds no ampersand, [GetString]
    returns the text of the field as it is, whatever the tables of
    entities; so [GetString("Name")] and [String()] agree on every track
    whose name holds no ampersand.  In general [GetString("Name")] is the
    unescaping of what [String()] returns, which is the raw name. *)
Theorem GetString_of_plain_text
  (entity : string → Z) (entity2 : string → Z * Z)
  (t : Track) (name : string) (proj : Track → string) :
  (name, proj) ∈ Track_string_fields →
  "&"%char ∉ list_ascii_of_string (proj t) →
  Track_GetString (html.UnescapeString entity entity2) t name = Ret (proj t)
  ∧ (∀ U, Track_GetString U t "Name" = Ret (U (Track_String t)))
  ∧ (name = "Name" →
     Track_GetString (html.UnescapeString entity entity2) t "Name"
     = Ret (Track_String t)).
Proof.
  intros Hin Hplain.
  assert (Hget : Track_GetString (html.UnescapeString entity entity2) t name
                 = Ret (proj t)).
  { pose proof (proj1 (Forall_forall _ _) Track_string_fields_values _ Hin t)
      as Hvalue. cbn in Hvalue.
    assert (Hkind : field_kind name = Some reflect.String).
    { unfold field_value in Hvalue. unfold field_kind.
      destruct (reflect.FieldByName Track_type name) as [[i ft]|] eqn:Hfind;
        [|discriminate].
      destruct (Track_field_value t name i ft Hfind) as (v & Hv & Hk).
      rewrite Hv in Hvalue. injection Hvalue as ->. rewrite <- Hk. reflexivity. }
    rewrite Track_GetString_eq, Hkind, Hvalue. cbn [Value_String].
    unfold html.UnescapeString.
    rewrite unescape_loop_no_amp by exact Hplain.
    rewrite string_of_list_ascii_of_string. reflexivity. }
  split; [exact Hget|]. split; [intros U; reflexivity|].
  intros ->. rewrite Hget.
  assert (Hname : Forall (λ '(n, p), n = "Name" → ∀ t', p t' = Name t')
                    Track_string_fields).
  { repeat apply Forall_cons_2; try apply Forall_nil_2;
      first [ discriminate | intros _ t'; reflexivity ]. }
  rewrite (proj1 (Forall_forall _ _) Hname _ Hin eq_refl). reflexivity.
Qed.

Lemma GetString_of_plain_text_witness :
  let t := sample_Track 2 "B side" in
  ("Name", Name) ∈ Track_string_fields
  ∧ ("&"%char ∉ list_ascii_of_string (Name t))
  ∧ Track_GetString (html.UnescapeString html.entity_excerpt html.entity2_none)
      t "Name" = Ret "B side"
  ∧ Track_String t = "B side".
Proof.
  intros t.
  assert (Hin : ("Name", Name) ∈ Track_string_fields) by apply list_elem_of_here.
  assert (Hplain : "&"%char ∉ list_ascii_of_string (Name t)).
  { cbn. intros H. repeat (apply elem_of_cons in H as [H|H]; [discriminate|]).
    inversion H. }
  destruct (GetString_of_plain_text html.entity_excerpt html.entity2_none
              t "Name" Name Hin Hplain) as (Hget & _ & _).
  exact (conj Hin (conj Hplain (conj Hget eq_refl))).
Defined.

(** X10: a caller that ignores the error of [Track(k)] for a missing
    identifier and reads the returned track by name gets the zero value
    of the field: the empty text unescaped, zero, false. *)
Theorem accessors_on_a_missing_track
  (U : string → string) (l : Library) (k : string) (h : heap) (name : string) :
  map_contents h (Tracks l) !! k = None →
  let t := (Library_Track l k h).1 in
  (Track_has_field name reflect.String → Track_GetString U t name = Ret (U ""))
  ∧ (Track_has_field name reflect.Int → Track_GetInt t name = Ret 0)
  ∧ (Track_has_field name reflect.Bool → Track_GetBool t name = Ret false).
Proof.
  intros Hnone t. unfold t. rewrite Library_Track_eq, Hnone. cbn [fst].
  split; [|split].
  - intros (proj & Hin & ->)%(Track_GetString_field U). do 2 f_equal.
    assert (Hzero : Forall (λ '(_, p), p zero_Track = "") Track_string_fields)
      by (repeat apply Forall_cons_2; try apply Forall_nil_2; reflexivity).
    exact (proj1 (Forall_forall _ _) Hzero _ Hin).
  - intros (proj & Hin & ->)%Track_GetInt_field. f_equal.
    assert (Hzero : Forall (λ '(_, p), p zero_Track = 0) Track_int_fields)
      by (repeat apply Forall_cons_2; try apply Forall_nil_2; reflexivity).
    exact (proj1 (Forall_forall _ _) Hzero _ Hin).
  - intros (proj & Hin & ->)%Track_GetBool_field. f_equal.
    assert (Hzero : Forall (λ '(_, p), p zero_Track = false) Track_bool_fields)
      by (repeat apply Forall_cons_2; try apply Forall_nil_2; reflexivity).
    exact (proj1 (Forall_forall _ _) Hzero _ Hin).
Qed.

Lemma accessors_on_a_missing_track_witness :
  let t := (Library_Track sample_Library "8" sample_heap).1 in
  map_contents sample_heap (Tracks sample_Library) !! "8" = None
  ∧ Track_has_field "TrackID" reflect.Int
  ∧ Track_GetInt t "TrackID" = Ret 0
  ∧ Track_GetString id t "Name" = Ret "".
Proof.
  intros t.
  assert (Hnone : map_contents sample_heap (Tracks sample_Library) !! "8" = None)
    by (vm_compute; reflexivity).
  destruct (accessors_on_a_missing_track id sample_Library "8" sample_heap
              "TrackID" Hnone) as (_ & HI & _).
  destruct (accessors_on_a_missing_track id sample_Library "8" sample_heap
              "Name" Hnone) as (HS & _ & _).
  exact (conj Hnone (conj TrackID_is_an_int_field
           (conj (HI TrackID_is_an_int_field) (HS Name_is_a_string_field)))).
Defined.

(** ** The decode entry point on streams read to their end *)

(** X11: [ReadFromXML] succeeds exactly when the stream ends in the end
    of file and the decoder accepts the bytes; it then returns the
    library the decoder built.  The decoder is handed all the bytes of
    the stream in order, so the result does not depend on how the stream
    cut them into reads. *)
Theorem ReadFromXML_decodes_the_whole_stream {store : Type}
  (Unmarshal : list byte → Library → store → Library * option goerror * store)
  (h : store) :
  (∀ r, (ReadFromXML Unmarshal r h).1.2 = None
        ↔ Reader_error r = io_EOF
          ∧ (Unmarshal (Reader_data r) zero_Library h).1.2 = None)
  ∧ (∀ r l h', Reader_error r = io_EOF →
               Unmarshal (Reader_data r) zero_Library h = (l, None, h') →
               ReadFromXML Unmarshal r h = (l, None, h'))
  ∧ (∀ r1 r2, Reader_data r1 = Reader_data r2 →
              Reader_error r1 = Reader_error r2 →
              ReadFromXML Unmarshal r1 h = ReadFromXML Unmarshal r2 h).
Proof.
  split; [|split].
  - intros r. rewrite ReadFromXML_eq.
    destruct (decide (Reader_error r = io_EOF)) as [Heof|Herr]; cbn.
    + tauto.
    + split; [discriminate|]. intros [Heof _]. contradiction.
  - intros r l h' Heof Hdec.
    rewrite ReadFromXML_eq, decide_True by exact Heof. exact Hdec.
  - intros r1 r2 Hdata Herr. rewrite !ReadFromXML_eq, Hdata, Herr. reflexivity.
Qed.

Lemma ReadFromXML_decodes_the_whole_stream_witness :
  let r1 := Read_more [x01%byte] (Read_more [] (Read_last [x02%byte] io_EOF)) in
  let r2 := Read_last [x01%byte; x02%byte] io_EOF in
  let l := with_MinorVersion 2 (with_MajorVersion 1 zero_Library) in
  Reader_data r1 = Reader_data r2
  ∧ Reader_error r1 = io_EOF
  ∧ ReadFromXML stream_Unmarshal r1 () = (l, None, ())
  ∧ ReadFromXML stream_Unmarshal r1 () = ReadFromXML stream_Unmarshal r2 ()
  ∧ (ReadFromXML stream_Unmarshal (Read_last [] io_EOF) ()).1.2 ≠ None.
Proof.
  intros r1 r2 l.
  destruct (ReadFromXML_decodes_the_whole_stream stream_Unmarshal ())
    as (Hiff & Hok & Hsame).
  split; [reflexivity|]. split; [reflexivity|]. split; [|split].
  - apply Hok; reflexivity.
  - apply Hsame; reflexivity.
  - intros Hnil. apply Hiff in Hnil as [_ Hdec]. discriminate Hdec.
Defined.
